(** * forgi topology tools: graph-text parser, longest-path search, loop collapser

    A shallow embedding of [src/topo/RNA_longest.py] and
    [src/topo/RNA_visulize.py] and the properties their specification states.

    Modelling conventions.
    - A Python [str] is a [list ascii]; a character is a code point below 256.
      On that range [\s] and [str.strip] agree on the twelve characters of
      [is_space], [\d] is [0-9], and [str.splitlines] breaks on the characters
      of [is_linebreak] (with CR LF read as one break).
    - [re.match] / [re.search] are run by a small backtracking matcher over a
      list of pattern items, greedy and lazy repetition tried in the order the
      [re] module tries them; the patterns of the sources are written as such
      lists.
    - A [networkx.Graph] is its adjacency dictionary: an association list from
      node to neighbour list, both in insertion order.
    - [networkx.shortest_path] and the iteration order of a Python [set] are
      library behaviour: the development is parametrised by the classes
      [ShortestPath] and [SetOrder], each carrying the documented contract, and
      each is inhabited by a reference instance. *)

From Stdlib Require Import Ascii String.
From Stdlib Require Import List ZArith Lia Bool Arith Permutation Sorted.
Import ListNotations.
Open Scope list_scope.

(** ** Strings *)

Definition str := list ascii.

Definition py (s : string) : str := list_ascii_of_string s.

Definition ord (c : ascii) : N := N_of_ascii c.

Definition LF : ascii := ascii_of_nat 10.
Definition CR : ascii := ascii_of_nat 13.
Definition DQUOTE : ascii := ascii_of_nat 34.

(** [\s] on code points below 256 (also the characters [str.strip] removes). *)
Definition is_space (c : ascii) : bool :=
  let n := ord c in
  ((9 <=? n) && (n <=? 13) || (28 <=? n) && (n <=? 32)
   || (n =? 133) || (n =? 160))%N.

Definition non_space (c : ascii) : bool := negb (is_space c).

(** [\d] on code points below 256. *)
Definition is_digit (c : ascii) : bool :=
  let n := ord c in ((48 <=? n) && (n <=? 57))%N.

(** [.] without DOTALL: anything but a line feed. *)
Definition is_dot (c : ascii) : bool := negb (Ascii.eqb c LF).

(** Line boundaries of [str.splitlines] below 256 (CR LF handled apart). *)
Definition is_linebreak (c : ascii) : bool :=
  let n := ord c in
  ((10 <=? n) && (n <=? 13) || (28 <=? n) && (n <=? 30) || (n =? 133))%N.

Fixpoint str_eqb (s t : str) : bool :=
  match s, t with
  | [], [] => true
  | a :: s', b :: t' => Ascii.eqb a b && str_eqb s' t'
  | _, _ => false
  end.

Fixpoint dropwhile (c : ascii -> bool) (s : str) : str :=
  match s with
  | x :: s' => if c x then dropwhile c s' else s
  | [] => []
  end.

Definition lstrip (s : str) : str := dropwhile is_space s.
Definition rstrip (s : str) : str := rev (dropwhile is_space (rev s)).
Definition strip (s : str) : str := rstrip (lstrip s).

Fixpoint startswith (s prefix : str) : bool :=
  match prefix, s with
  | [], _ => true
  | p :: prefix', x :: s' => Ascii.eqb x p && startswith s' prefix'
  | _ :: _, [] => false
  end.

(** [sub in s] for strings. *)
Fixpoint contains (s sub : str) : bool :=
  startswith s sub ||
  match s with
  | _ :: s' => contains s' sub
  | [] => false
  end.

(** ['i' in s]. *)
Definition has_i (s : str) : bool := existsb (Ascii.eqb "i"%char) s.

Fixpoint splitlines_from (cur : str) (s : str) : list str :=
  match s with
  | [] => match cur with [] => [] | _ => [cur] end
  | c :: s' =>
      if Ascii.eqb c CR then
        match s' with
        | c' :: s'' =>
            if Ascii.eqb c' LF then cur :: splitlines_from [] s''
            else cur :: splitlines_from [] s'
        | [] => cur :: splitlines_from [] s'
        end
      else if is_linebreak c then cur :: splitlines_from [] s'
      else splitlines_from (cur ++ [c]) s'
  end.

(** [s.splitlines()]. *)
Definition splitlines (s : str) : list str := splitlines_from [] s.

Fixpoint readlines_from (cur : str) (s : str) : list str :=
  match s with
  | [] => match cur with [] => [] | _ => [cur] end
  | c :: s' =>
      if Ascii.eqb c CR then
        match s' with
        | c' :: s'' =>
            if Ascii.eqb c' LF then (cur ++ [LF]) :: readlines_from [] s''
            else (cur ++ [LF]) :: readlines_from [] s'
        | [] => (cur ++ [LF]) :: readlines_from [] s'
        end
      else if Ascii.eqb c LF then (cur ++ [LF]) :: readlines_from [] s'
      else readlines_from (cur ++ [c]) s'
  end.

(** [file.readlines()] of a text-mode file with the given contents: universal
    newlines, line ends kept as a line feed. *)
Definition readlines (contents : str) : list str := readlines_from [] contents.

(** [sep.join(ls)]. *)
Fixpoint join (sep : str) (ls : list str) : str :=
  match ls with
  | [] => []
  | l :: rest =>
      match rest with
      | [] => l
      | _ :: _ => l ++ sep ++ join sep rest
      end
  end.

(** [int(s)] for a run of decimal digits. *)
Definition digit_val (c : ascii) : Z := Z.of_N (ord c) - 48.

Definition int_of_digits (s : str) : Z :=
  fold_left (fun acc c => 10 * acc + digit_val c)%Z s 0%Z.

(** ** The pattern matcher *)

Inductive item : Type :=
| Lit (a : ascii)                  (* a literal character          *)
| One (c : ascii -> bool)          (* one character of a class     *)
| Star (c : ascii -> bool)         (* c*   greedy                  *)
| Plus (c : ascii -> bool)         (* c+   greedy                  *)
| LazyStar (c : ascii -> bool)     (* c*?  lazy                    *)
| Cap (c : ascii -> bool).         (* (c+) greedy, capturing       *)

Definition regex := list item.

Section Backtrack.
Context {R : Type}.

(** Longest run first, giving characters back one at a time. *)
Fixpoint greedy (c : ascii -> bool) (k : str -> option R) (s : str)
  : option R :=
  match s with
  | x :: s' =>
      if c x then
        match greedy c k s' with
        | Some r => Some r
        | None => k s
        end
      else k s
  | [] => k s
  end.

(** Shortest run first, taking one more character on failure. *)
Fixpoint lazy_run (c : ascii -> bool) (k : str -> option R) (s : str)
  : option R :=
  match k s with
  | Some r => Some r
  | None =>
      match s with
      | x :: s' => if c x then lazy_run c k s' else None
      | [] => None
      end
  end.

(** As [greedy], remembering the characters consumed so far. *)
Fixpoint greedy_cap (c : ascii -> bool) (k : str -> str -> option R)
    (acc : str) (s : str) : option R :=
  match s with
  | x :: s' =>
      if c x then
        match greedy_cap c k (acc ++ [x]) s' with
        | Some r => Some r
        | None => k acc s
        end
      else k acc s
  | [] => k acc s
  end.
End Backtrack.

(** [run r caps s]: match [r] at the start of [s]; the groups captured so far
    are [caps]; the result is the groups and the unread rest. *)
Fixpoint run (r : regex) (caps : list str) (s : str)
  : option (list str * str) :=
  match r with
  | [] => Some (caps, s)
  | Lit a :: r' =>
      match s with
      | x :: s' => if Ascii.eqb x a then run r' caps s' else None
      | [] => None
      end
  | One c :: r' =>
      match s with
      | x :: s' => if c x then run r' caps s' else None
      | [] => None
      end
  | Star c :: r' => greedy c (run r' caps) s
  | Plus c :: r' =>
      match s with
      | x :: s' => if c x then greedy c (run r' caps) s' else None
      | [] => None
      end
  | LazyStar c :: r' => lazy_run c (run r' caps) s
  | Cap c :: r' =>
      match s with
      | x :: s' =>
          if c x then greedy_cap c (fun g => run r' (caps ++ [g])) [x] s'
          else None
      | [] => None
      end
  end.

(** [re.match(r, s).groups()] *)
Definition re_match (r : regex) (s : str) : option (list str) :=
  option_map fst (run r [] s).

(** [re.search(r, s).groups()]: the leftmost position where [r] matches. *)
Fixpoint re_search (r : regex) (s : str) : option (list str) :=
  match re_match r s with
  | Some g => Some g
  | None =>
      match s with
      | _ :: s' => re_search r s'
      | [] => None
      end
  end.

Definition lits (s : str) : regex := map Lit s.

(** [\s*(\S+)\s--\s(\S+);] *)
Definition edge_pattern : regex :=
  [Star is_space; Cap non_space; One is_space; Lit "-"%char; Lit "-"%char;
   One is_space; Cap non_space; Lit ";"%char].

(** [label=".*?\((\d+)\)"]\s+(\S+)};] *)
Definition node_pattern : regex :=
  lits (py "label=") ++
  [Lit DQUOTE; LazyStar is_dot; Lit "("%char; Cap is_digit; Lit ")"%char;
   Lit DQUOTE; Lit "]"%char; Plus is_space; Cap non_space; Lit "}"%char;
   Lit ";"%char].

(** [\d+] (the whole match is the one group). *)
Definition digits_pattern : regex := [Cap is_digit].

Definition two_groups (m : option (list str)) : option (str * str) :=
  match m with
  | Some [a; b] => Some (a, b)
  | _ => None
  end.

Definition edge_match (line : str) : option (str * str) :=
  two_groups (re_match edge_pattern line).

Definition node_match (line : str) : option (str * str) :=
  two_groups (re_search node_pattern line).

(** ** Dictionaries and graphs *)

(** A [dict] with string keys, in insertion order. *)
Definition dict (V : Type) := list (str * V).

Fixpoint dict_find {V} (d : dict V) (k : str) : option V :=
  match d with
  | [] => None
  | (k', v) :: d' => if str_eqb k' k then Some v else dict_find d' k
  end.

(** [d.get(k, default)] *)
Definition dict_get {V} (d : dict V) (k : str) (default : V) : V :=
  match dict_find d k with
  | Some v => v
  | None => default
  end.

(** [k in d] *)
Definition dict_mem {V} (d : dict V) (k : str) : bool :=
  match dict_find d k with
  | Some _ => true
  | None => false
  end.

(** [d[k] = f(d[k])] for a key that may be absent: an existing key keeps its
    place, a new key goes last with [f init]. *)
Fixpoint dict_upd {V} (d : dict V) (k : str) (init : V) (f : V -> V)
  : dict V :=
  match d with
  | [] => [(k, f init)]
  | (k', v) :: d' =>
      if str_eqb k' k then (k', f v) :: d'
      else (k', v) :: dict_upd d' k init f
  end.

(** [d[k] = v] *)
Definition dict_set {V} (d : dict V) (k : str) (v : V) : dict V :=
  dict_upd d k v (fun _ => v).

(** [d.setdefault(k, []).append(v)] *)
Definition setdefault_append (d : dict (list str)) (k v : str)
  : dict (list str) :=
  dict_upd d k [] (fun l => l ++ [v]).

(** [networkx.Graph]: node -> neighbours. *)
Definition Graph := dict (list str).

(** [graph.nodes] *)
Definition nodes (g : Graph) : list str := map fst g.

(** [graph.adj[u]] ([[]] for a node that is not there). *)
Definition adj (g : Graph) (u : str) : list str := dict_get g u [].

Definition add_node (g : Graph) (u : str) : Graph :=
  if dict_mem g u then g else g ++ [(u, [])].

Definition list_add (v : str) (l : list str) : list str :=
  if existsb (str_eqb v) l then l else l ++ [v].

(** [G.add_edge(u, v)] *)
Definition add_edge (g : Graph) (u v : str) : Graph :=
  let g1 := add_node (add_node g u) v in
  let g2 := dict_upd g1 u [] (list_add v) in
  dict_upd g2 v [] (list_add u).

(** ** RNA_longest.py: parse_graph_with_bases *)

Definition parse_line (st : Graph * dict Z) (line : str) : Graph * dict Z :=
  let G := fst st in
  let base_counts := snd st in
  let G' :=
    match edge_match line with
    | Some (node_a, node_b) => add_edge G (strip node_a) (strip node_b)
    | None => G
    end in
  let base_counts' :=
    match node_match line with
    | Some (base_count, node) =>
        dict_set base_counts (strip node) (int_of_digits base_count)
    | None => base_counts
    end in
  (G', base_counts').

(** The argument is the contents of the file at [file_path]. *)
Definition parse_graph_with_bases (contents : str) : Graph * dict Z :=
  fold_left parse_line (readlines contents) ([], []).

(** ** Paths *)

Fixpoint chain (g : Graph) (p : list str) : Prop :=
  match p with
  | x :: t =>
      match t with
      | y :: _ => In y (adj g x) /\ chain g t
      | [] => True
      end
  | [] => True
  end.

(** [p] leads from [u] to [v] along edges of [g]. *)
Definition is_path (g : Graph) (u v : str) (p : list str) : Prop :=
  hd_error p = Some u /\ last p u = v /\ chain g p.

(** Number of edges of a path given as a node list. *)
Definition edge_count (p : list str) : Z := Z.of_nat (length p) - 1.

(** [networkx.shortest_path(graph, source, target, weight=None)] for two nodes
    of the graph: [None] stands for [NetworkXNoPath]. The fields are the
    documented contract: the result is a path from source to target, no path
    between them has fewer nodes, and the exception is raised only when there
    is no path. *)
Class ShortestPath : Type := {
  shortest_path : Graph -> str -> str -> option (list str);
  sp_path : forall g u v p,
      In u (nodes g) -> In v (nodes g) ->
      shortest_path g u v = Some p -> is_path g u v p;
  sp_shortest : forall g u v p q,
      In u (nodes g) -> In v (nodes g) ->
      shortest_path g u v = Some p -> is_path g u v q ->
      length p <= length q;
  sp_found : forall g u v q,
      In u (nodes g) -> In v (nodes g) ->
      is_path g u v q -> shortest_path g u v <> None
}.

(** *** A reference shortest-path routine: search by increasing length *)

Fixpoint first_some {A B} (f : A -> option B) (l : list A) : option B :=
  match l with
  | [] => None
  | x :: l' =>
      match f x with
      | Some r => Some r
      | None => first_some f l'
      end
  end.

(** A walk of exactly [k] edges from [u] to [v], neighbours tried in
    adjacency order. *)
Fixpoint walk_of_len (g : Graph) (k : nat) (u v : str) : option (list str) :=
  match k with
  | 0 => if str_eqb u v then Some [u] else None
  | S k' =>
      first_some (fun w => option_map (cons u) (walk_of_len g k' w v))
                 (adj g u)
  end.

Definition ref_shortest_path (g : Graph) (u v : str) : option (list str) :=
  first_some (fun k => walk_of_len g k u v) (seq 0 (S (length g))).

(** ** RNA_longest.py: the two searches *)

Section LongestPath.
Context {SP : ShortestPath}.

Definition edges_visit (graph : Graph) (node target : str)
    (st : list str * Z) : list str * Z :=
  if str_eqb node target then st
  else
    match shortest_path graph node target with
    | Some path =>
        if (Z.of_nat (length path) >? snd st)%Z
        then (path, Z.of_nat (length path))
        else st
    | None => st
    end.

Definition find_longest_path_by_edges (graph : Graph) : list str * Z :=
  let st :=
    fold_left
      (fun st node =>
         fold_left (fun st target => edges_visit graph node target st)
                   (nodes graph) st)
      (nodes graph) ([], 0%Z) in
  (fst st, (snd st - 1)%Z).

(** [sum(base_counts.get(n, 0) for n in path)] *)
Definition base_sum (base_counts : dict Z) (path : list str) : Z :=
  fold_left (fun acc n => (acc + dict_get base_counts n 0)%Z) path 0%Z.

Definition bases_visit (graph : Graph) (base_counts : dict Z)
    (node target : str) (st : list str * Z) : list str * Z :=
  if str_eqb node target then st
  else
    match shortest_path graph node target with
    | Some path =>
        if (base_sum base_counts path >? snd st)%Z
        then (path, base_sum base_counts path)
        else st
    | None => st
    end.

Definition find_longest_path_by_bases (graph : Graph)
    (base_counts : dict Z) : list str * Z :=
  fold_left
    (fun st node =>
       fold_left
         (fun st target => bases_visit graph base_counts node target st)
         (nodes graph) st)
    (nodes graph) ([], 0%Z).
End LongestPath.

(** ** RNA_visulize.py: filter_internal_loops *)

Definition edge := (str * str)%type.

Definition edge_eq_dec : forall e1 e2 : edge, {e1 = e2} + {e1 <> e2}.
Proof. repeat decide equality. Defined.

(** [list(set(l))]: the elements of [l], each once, in an order the language
    leaves open. *)
Class SetOrder : Type := {
  set_to_list : list edge -> list edge;
  set_nodup : forall l, NoDup (set_to_list l);
  set_in : forall l e, In e (set_to_list l) <-> In e l
}.

(** The components of a sort key: an [int], or [float('inf')]. *)
Inductive num : Type :=
| Fin (n : Z)
| Inf.

(** [x < y] on such numbers. *)
Definition num_ltb (x y : num) : bool :=
  match x, y with
  | Fin a, Fin b => (a <? b)%Z
  | Fin _, Inf => true
  | Inf, _ => false
  end.

Definition num_eqb (x y : num) : bool :=
  match x, y with
  | Fin a, Fin b => (a =? b)%Z
  | Inf, Inf => true
  | _, _ => false
  end.

(** [k1 < k2] on pairs: the first components decide unless they are equal. *)
Definition key_ltb (k1 k2 : num * num) : bool :=
  if num_eqb (fst k1) (fst k2) then num_ltb (snd k1) (snd k2)
  else num_ltb (fst k1) (fst k2).

(** [int(re.search(r'\d+', s).group()) if re.search(r'\d+', s)
     else float('inf')] *)
Definition numeric (s : str) : num :=
  match re_search digits_pattern s with
  | Some (d :: _) => Fin (int_of_digits d)
  | _ => Inf
  end.

Definition sort_key (e : edge) : num * num :=
  (numeric (fst e), numeric (snd e)).

(** [list.sort(key=...)] is stable: an element goes in front of the first one
    whose key is not smaller than its own. *)
Fixpoint insert_by {A} (key : A -> num * num) (x : A) (l : list A) : list A :=
  match l with
  | [] => [x]
  | y :: l' =>
      if key_ltb (key y) (key x) then y :: insert_by key x l'
      else x :: l
  end.

Fixpoint sort_by {A} (key : A -> num * num) (l : list A) : list A :=
  match l with
  | [] => []
  | x :: l' => insert_by key x (sort_by key l')
  end.

Record scan_state : Type := {
  inside_graph : bool;
  filtered_lines : list str;
  edge_lines : list edge;
  node_connections : dict (list str)
}.

Definition scan_init : scan_state :=
  {| inside_graph := false; filtered_lines := []; edge_lines := [];
     node_connections := [] |}.

(** The line is a node declaration whose label starts with [i]. *)
Definition is_loop_decl (line : str) : bool :=
  startswith (strip line) (py "{node") &&
  contains line (py "label=" ++ [DQUOTE] ++ py "i").

Definition keep_line (st : scan_state) (inside : bool) (line : str)
  : scan_state :=
  {| inside_graph := inside;
     filtered_lines := filtered_lines st ++ [line];
     edge_lines := edge_lines st;
     node_connections := node_connections st |}.

(** One turn of the loop over the lines. *)
Definition scan_line (st : scan_state) (line : str) : scan_state :=
  let stripped_line := strip line in
  if startswith stripped_line (py "graph G {") then keep_line st true line
  else
    let inside := if str_eqb stripped_line (py "}") then false
                  else inside_graph st in
    if inside then
      match edge_match line with
      | Some (node_a, node_b) =>
          if has_i node_a || has_i node_b then
            {| inside_graph := inside;
               filtered_lines := filtered_lines st;
               edge_lines := edge_lines st;
               node_connections :=
                 if has_i node_a then
                   setdefault_append (node_connections st) node_a node_b
                 else if has_i node_b then
                   setdefault_append (node_connections st) node_b node_a
                 else node_connections st |}
          else
            {| inside_graph := inside;
               filtered_lines := filtered_lines st;
               edge_lines := edge_lines st ++ [(node_a, node_b)];
               node_connections := node_connections st |}
      | None => keep_line st inside line
      end
    else keep_line st inside line.

(** The lines left after the declarations of loop nodes are dropped. *)
Definition surviving_lines (graph_output : str) : list str :=
  filter (fun line => negb (is_loop_decl line)) (splitlines graph_output).

Definition scan (graph_output : str) : scan_state :=
  fold_left scan_line (surviving_lines graph_output) scan_init.

(** [for i in range(len(n)): for j in range(i + 1, len(n)):
      (n[i], n[j])] *)
Definition clique (neighbors : list str) : list edge :=
  flat_map
    (fun i =>
       map (fun j => (nth i neighbors [], nth j neighbors []))
           (seq (i + 1) (length neighbors - (i + 1))))
    (seq 0 (length neighbors)).

(** The edges appended for the recorded intermediates, in dictionary order. *)
Definition expansion (connections : dict (list str)) : list edge :=
  flat_map (fun kv => clique (snd kv)) connections.

(** [edge_lines] after the replacement loop. *)
Definition all_edges (graph_output : str) : list edge :=
  let st := scan graph_output in
  edge_lines st ++ expansion (node_connections st).

(** [f"    {a} -- {b};\n"] *)
Definition format_edge (e : edge) : str :=
  py "    " ++ fst e ++ py " -- " ++ snd e ++ py ";" ++ [LF].

Section Collapse.
Context {SO : SetOrder}.

(** [edge_lines] after deduplication and sorting. *)
Definition sorted_edges (graph_output : str) : list edge :=
  sort_by sort_key (set_to_list (all_edges graph_output)).

Definition filter_internal_loops (graph_output : str) : str :=
  let st := scan graph_output in
  let sorted_edge_lines := map format_edge (sorted_edges graph_output) in
  join [LF]
    (removelast (filtered_lines st) ++ sorted_edge_lines ++ [py "}"]).
End Collapse.

(** A reference [SetOrder]: [nodup] keeps one occurrence of each element. *)
#[export] Instance nodup_order : SetOrder := {|
  set_to_list := nodup edge_eq_dec;
  set_nodup := NoDup_nodup edge_eq_dec;
  set_in := fun l e => nodup_In edge_eq_dec l e
|}.

(** * Vocabulary of the specification *)

(** ** Candidates of the search *)

(** Equality of strings is decidable. *)
Definition str_eq_dec : forall s t : str, {s = t} + {s <> t} :=
  list_eq_dec ascii_dec.

(** What the pair [(u, v)] adds to the candidates. *)
Definition cand_of {SP : ShortestPath} (g : Graph) (u v : str)
  : list (str * str * list str) :=
  if str_eqb u v then []
  else
    match shortest_path g u v with
    | Some p => [(u, v, p)]
    | None => []
    end.

(** The ordered pairs [(u, v)], [u <> v], in the order the two loops visit
    them, each with the shortest path found for it; pairs without a path are
    left out. *)
Definition candidates {SP : ShortestPath} (g : Graph)
  : list (str * str * list str) :=
  flat_map (fun u => flat_map (cand_of g u) (nodes g)) (nodes g).

(** The path of a candidate. *)
Definition cand_path (c : str * str * list str) : list str := snd c.

(** The metric of the search by edges. *)
Definition edge_metric (c : str * str * list str) : Z :=
  edge_count (cand_path c).

(** The metric of the search by bases. *)
Definition base_metric (bc : dict Z) (c : str * str * list str) : Z :=
  base_sum bc (cand_path c).

(** One step of the search: the candidate replaces the best so far only when
    its metric is strictly larger. *)
Definition improve {A} (path : A -> list str) (metric : A -> Z)
    (st : list str * Z) (c : A) : list str * Z :=
  if (metric c >? snd st)%Z then (path c, metric c) else st.

(** [c] is the earliest element of [cs] whose metric is the maximum. *)
Definition earliest_max {A} (metric : A -> Z) (cs : list A) (c : A) : Prop :=
  exists l1 l2,
    cs = l1 ++ c :: l2 /\
    Forall (fun x => (metric x < metric c)%Z) l1 /\
    Forall (fun x => (metric x <= metric c)%Z) l2.

(** ** Distances *)

(** Every two nodes are joined by a path. *)
Definition connected (g : Graph) : Prop :=
  forall u v, In u (nodes g) -> In v (nodes g) -> exists p, is_path g u v p.

(** [d] is the number of edges of a shortest path from [u] to [v]. *)
Definition dist (g : Graph) (u v : str) (d : Z) : Prop :=
  (exists p, is_path g u v p /\ edge_count p = d) /\
  (forall q, is_path g u v q -> (d <= edge_count q)%Z).

(** [D] is the largest distance between two nodes of [g]. *)
Definition diameter (g : Graph) (D : Z) : Prop :=
  (exists u v, In u (nodes g) /\ In v (nodes g) /\ dist g u v D) /\
  (forall u v d, In u (nodes g) -> In v (nodes g) -> dist g u v d ->
                 (d <= D)%Z).

(** ** What the matcher is to compute *)

(** Every character of [t] is in the class [c]. *)
Definition all_in (c : ascii -> bool) (t : str) : Prop :=
  Forall (fun x => c x = true) t.

(** What it means for a pattern to match a prefix of a string: [matches r
    caps s caps' rest] when [r] can consume [s] down to [rest], adding to the
    groups [caps] to give [caps']. *)
Inductive matches : regex -> list str -> str -> list str -> str -> Prop :=
| m_end caps s : matches [] caps s caps s
| m_lit a r caps s caps' rest :
    matches r caps s caps' rest ->
    matches (Lit a :: r) caps (a :: s) caps' rest
| m_one c x r caps s caps' rest :
    c x = true -> matches r caps s caps' rest ->
    matches (One c :: r) caps (x :: s) caps' rest
| m_star c t r caps s caps' rest :
    all_in c t -> matches r caps s caps' rest ->
    matches (Star c :: r) caps (t ++ s) caps' rest
| m_plus c t r caps s caps' rest :
    t <> [] -> all_in c t -> matches r caps s caps' rest ->
    matches (Plus c :: r) caps (t ++ s) caps' rest
| m_lazy c t r caps s caps' rest :
    all_in c t -> matches r caps s caps' rest ->
    matches (LazyStar c :: r) caps (t ++ s) caps' rest
| m_cap c t r caps s caps' rest :
    t <> [] -> all_in c t -> matches r (caps ++ [t]) s caps' rest ->
    matches (Cap c :: r) caps (t ++ s) caps' rest.

(** [l] is an edge line for the tokens [a] and [b], followed by [rest]. *)
Definition edge_shape (l a b rest : str) : Prop :=
  exists ws s1 s2,
    l = ws ++ a ++ s1 :: "-"%char :: "-"%char :: s2 :: b ++ ";"%char :: rest /\
    all_in is_space ws /\
    a <> [] /\ all_in non_space a /\
    is_space s1 = true /\ is_space s2 = true /\
    b <> [] /\ all_in non_space b.

(** What a group of the edge pattern holds: characters, none of them white
    space. *)
Definition token (t : str) : Prop := t <> [] /\ all_in non_space t.

(** Both endpoints of the edge are tokens. *)
Definition edge_tokens (e : edge) : Prop := token (fst e) /\ token (snd e).

(** Everything the scan has recorded is made of tokens. *)
Definition scan_tokens (st : scan_state) : Prop :=
  Forall edge_tokens (edge_lines st) /\
  Forall (fun kv => Forall token (snd kv)) (node_connections st).

(** ** Sort keys in the words of the specification *)

Fixpoint takewhile (c : ascii -> bool) (s : str) : str :=
  match s with
  | x :: s' => if c x then x :: takewhile c s' else []
  | [] => []
  end.

(** The first run of decimal digits of [s] (empty when [s] has no digit). *)
Definition first_digits (s : str) : str :=
  takewhile is_digit (dropwhile (fun x => negb (is_digit x)) s).

(** The number an endpoint is sorted by: the value of its first run of
    digits, or infinity when it has none. *)
Definition endpoint_number (s : str) : num :=
  match first_digits s with
  | [] => Inf
  | d => Fin (int_of_digits d)
  end.

(** The order of the numbers, infinity last. *)
Definition num_lt (x y : num) : Prop :=
  match x, y with
  | Fin a, Fin b => (a < b)%Z
  | Fin _, Inf => True
  | Inf, _ => False
  end.

Definition num_le (x y : num) : Prop := num_lt x y \/ x = y.

(** Pairs ordered by their first components, then by their second. *)
Definition key_le (k1 k2 : num * num) : Prop :=
  num_lt (fst k1) (fst k2) \/ (fst k1 = fst k2 /\ num_le (snd k1) (snd k2)).

(** Edges ordered by the numbers of their endpoints. *)
Definition edge_le (e1 e2 : edge) : Prop :=
  key_le (endpoint_number (fst e1), endpoint_number (snd e1))
         (endpoint_number (fst e2), endpoint_number (snd e2)).

(** [x] goes before [y] when sorted by [key]. *)
Definition by_key {A} (key : A -> num * num) (x y : A) : Prop :=
  key_le (key x) (key y).

(** ** Lines *)

(** The line opens the graph block. *)
Definition opens (l : str) : bool := startswith (strip l) (py "graph G {").

(** The line closes the graph block. *)
Definition closes (l : str) : bool := str_eqb (strip l) (py "}").

(** The line matches the edge pattern. *)
Definition is_edge_line (l : str) : bool :=
  match edge_match l with
  | Some _ => true
  | None => false
  end.

(** The lines that pass through, in the words of the specification: an
    opening or closing line always does, an edge line inside the block never
    does, every other line does; [inside] tells whether the block is open
    when the first line is read. *)
Fixpoint passed_through (inside : bool) (ls : list str) : list str :=
  match ls with
  | [] => []
  | l :: ls' =>
      if opens l then l :: passed_through true ls'
      else if closes l then l :: passed_through false ls'
      else if inside && is_edge_line l then passed_through inside ls'
      else l :: passed_through inside ls'
  end.

(** No character of [l] ends a line. *)
Definition one_line (l : str) : Prop :=
  Forall (fun x => is_linebreak x = false) l.

(** A line as [readlines] returns it. *)
Definition with_LF (l : str) : str := l ++ [LF].

(** An edge line of the output, without its line feed. *)
Definition edge_text (e : edge) : str :=
  py "    " ++ fst e ++ py " -- " ++ snd e ++ py ";".

(** The number of entries of [l] that join [A] and [B], in either
    direction. *)
Definition between (A B : str) (l : list edge) : nat :=
  length (filter (fun e => if edge_eq_dec e (A, B) then true
                           else if edge_eq_dec e (B, A) then true
                           else false) l).

(** ** Sample inputs *)

(** A line of a sample text, with its line feed. *)
Definition line (s : string) : str := py s ++ [LF].

(** A node declaration with a base count in its label. *)
Definition decl (label : string) (id : string) : str :=
  py "{node [label=" ++ [DQUOTE] ++ py label ++ [DQUOTE] ++ py "] " ++
  py id ++ py "};" ++ [LF].

(** Three nodes in a row, with 3, 5 and 2 bases. *)
Definition row3_text : str :=
  decl "s (3)" "n1" ++ decl "s (5)" "n2" ++ decl "s (2)" "n3" ++
  line "n1 -- n2;" ++ line "n2 -- n3;".

(** The graph and the weight table parsed from it. *)
Definition row3 : Graph := fst (parse_graph_with_bases row3_text).

Definition row3_bases : dict Z := snd (parse_graph_with_bases row3_text).

(** Two joined nodes whose labels give them no bases. *)
Definition pair0_text : str :=
  decl "s (0)" "n1" ++ line "n1 -- n2;".

Definition pair0 : Graph := fst (parse_graph_with_bases pair0_text).

Definition pair0_bases : dict Z := snd (parse_graph_with_bases pair0_text).

(** One node with an edge to itself. *)
Definition loop1 : Graph := fst (parse_graph_with_bases (line "n1 -- n1;")).

(** A block with the same edge written in both directions. *)
Definition both_ways_text : str :=
  line "graph G {" ++ line "    n1 -- n2;" ++ line "    n2 -- n1;" ++ py "}".

(** A block followed by one more line. *)
Definition trailer_text : str :=
  line "graph G {" ++ line "}" ++ py "trailer".

(** An edge line in front of the block. *)
Definition outside_text : str :=
  line "n1 -- n2;" ++ line "graph G {" ++ py "}".

(** A loop node joined to three others, and one direct edge. *)
Definition loop_text : str :=
  line "graph G {" ++ line "  node [shape=box];" ++ line "    i1 -- n3;" ++
  line "    i1 -- n1;" ++ line "    n2 -- n4;" ++ line "    i1 -- n2;" ++
  py "}".

(** ** The nodes of a parsed graph *)

(** [x] goes last unless it is there already. *)
Definition add_new (acc : list str) (x : str) : list str :=
  if existsb (str_eqb x) acc then acc else acc ++ [x].

(** The elements of [l], each at its first occurrence. *)
Definition first_seen (l : list str) : list str := fold_left add_new l [].

(** The two tokens of an edge line; nothing for another line. *)
Definition endpoints (l : str) : list str :=
  match edge_match l with
  | Some (a, b) => [a; b]
  | None => []
  end.

(** ** Node declarations *)

(** [l] holds a node declaration for the node [node] with the digits [cnt]
    as its base count: [label="], any text on the line, the digits in
    parentheses, ["]], white space, the node and [};]. *)
Definition node_shape (l cnt node : str) : Prop :=
  exists pre txt ws rest,
    l = pre ++ py "label=" ++ DQUOTE :: txt ++ "("%char :: cnt ++
        ")"%char :: DQUOTE :: "]"%char :: ws ++ node ++
        "}"%char :: ";"%char :: rest /\
    all_in is_dot txt /\
    cnt <> [] /\ all_in is_digit cnt /\
    ws <> [] /\ all_in is_space ws /\
    node <> [] /\ all_in non_space node.

(** The base count the line declares for the node [n], if it declares
    one. *)
Definition declares (n : str) (l : str) : option Z :=
  match node_match l with
  | Some (cnt, node) =>
      if str_eqb node n then Some (int_of_digits cnt) else None
  | None => None
  end.

(** The count of the last line of [ls] that declares [n]; [cur] when none
    does. *)
Fixpoint last_declared (n : str) (ls : list str) (cur : option Z)
  : option Z :=
  match ls with
  | [] => cur
  | l :: ls' =>
      last_declared n ls'
        (match declares n l with
         | Some v => Some v
         | None => cur
         end)
  end.

(** ** RNA_longest.py: the command-line tool *)

(** What a run of the tool ends in: the [IndexError] raised by
    [longest_path[0]] before anything is printed, or the three things
    printed: the line [first ~ last], the path, and the metric under its
    label. *)
Inductive outcome : Type :=
| IndexError
| Printed (first_line : str) (path : list str) (label : str) (metric : Z).

(** The three [print] calls of either branch. *)
Definition report (longest_path : list str) (label : str) (metric : Z)
  : outcome :=
  match longest_path with
  | [] => IndexError
  | first :: _ =>
      Printed (first ++ py " ~ " ++ last longest_path first)
              longest_path label metric
  end.

(** The body of [__main__]: [base] is the flag [-b], [contents] the contents
    of the input file. *)
Definition main {SP : ShortestPath} (base : bool) (contents : str)
  : outcome :=
  let G := fst (parse_graph_with_bases contents) in
  let base_counts := snd (parse_graph_with_bases contents) in
  if base then
    let r := find_longest_path_by_bases G base_counts in
    report (fst r) (py "Total Base Count") (snd r)
  else
    let r := find_longest_path_by_edges G in
    report (fst r) (py "Total Node Count") (snd r).

(** ** What the scan records *)

(** Neither endpoint of the edge contains [i]. *)
Definition no_i (e : edge) : Prop :=
  has_i (fst e) = false /\ has_i (snd e) = false.

(** The line is not an edge line between two tokens that both contain [i]. *)
Definition not_loop_to_loop (l : str) : Prop :=
  match edge_match l with
  | Some (a, b) => has_i a && has_i b = false
  | None => True
  end.

(** The neighbour that the line records for the intermediate [k], if it
    records one: the other token of an edge line whose first token with an
    [i] is [k]. *)
Definition partner (k : str) (l : str) : option str :=
  match edge_match l with
  | Some (a, b) =>
      if has_i a then (if str_eqb a k then Some b else None)
      else if has_i b then (if str_eqb b k then Some a else None)
      else None
  | None => None
  end.

(** The neighbours recorded for [k] by the lines [ls], in the order of the
    lines; only lines inside the graph block record. *)
Fixpoint recorded (k : str) (inside : bool) (ls : list str) : list str :=
  match ls with
  | [] => []
  | l :: ls' =>
      if opens l then recorded k true ls'
      else if closes l then recorded k false ls'
      else if inside then
        match partner k l with
        | Some n => n :: recorded k inside ls'
        | None => recorded k inside ls'
        end
      else recorded k inside ls'
  end.

(** What the scan keeps true of its records. *)
Definition records_ok (st : scan_state) : Prop :=
  Forall no_i (edge_lines st) /\
  Forall (fun kv => has_i (fst kv) = true /\ snd kv <> [])
         (node_connections st) /\
  NoDup (map fst (node_connections st)).

(** Every neighbour recorded is free of [i]. *)
Definition neighbours_no_i (st : scan_state) : Prop :=
  Forall (fun kv => Forall (fun n => has_i n = false) (snd kv))
         (node_connections st).

(** A second reading of a set: the order of [nodup], reversed. *)
Definition reversed_order : SetOrder := {|
  set_to_list := fun l => rev (nodup edge_eq_dec l);
  set_nodup := fun l => NoDup_rev (NoDup_nodup edge_eq_dec l);
  set_in := fun l e =>
    iff_trans (iff_sym (in_rev (nodup edge_eq_dec l) e))
              (nodup_In edge_eq_dec l e)
|}.

(** Lines without a graph block. *)
Definition blockless_text : str :=
  line "n1 -- n2;" ++ line "note" ++ py "end".

(** ** Lines of a text, counted and compared *)

(** The test [test] on the two tokens of an edge line; [false] on another
    line. *)
Definition line_test (test : str -> str -> bool) (l : str) : bool :=
  match edge_match l with
  | Some (a, b) => test a b
  | None => false
  end.

(** The number of lines of [ls] that are edge lines with the tokens [A] and
    [B], in this order. *)
Definition lines_for (A B : str) (ls : list str) : nat :=
  length (filter (line_test (fun a b => str_eqb a A && str_eqb b B)) ls).

(** The number of lines of [ls] that are edge lines between [A] and [B], in
    either order. *)
Definition lines_between (A B : str) (ls : list str) : nat :=
  length (filter (line_test (fun a b => str_eqb a A && str_eqb b B ||
                                        str_eqb a B && str_eqb b A)) ls).

(** The only line boundary in the text is the line feed: no carriage return,
    vertical tab, form feed, file, group or record separator, or next-line
    character. *)
Definition only_LF_breaks (text : str) : bool :=
  forallb (fun x => negb (is_linebreak x) || Ascii.eqb x LF) text.

(** The last item of the pattern is a literal character other than the line
    feed. *)
Fixpoint ends_in_lit (r : regex) : bool :=
  match r with
  | [] => false
  | i :: r' =>
      match r' with
      | [] => match i with
              | Lit a => negb (Ascii.eqb a LF)
              | _ => false
              end
      | _ :: _ => ends_in_lit r'
      end
  end.

(** A result of the matcher, with a line feed added to the unread rest. *)
Definition push_LF (m : option (list str * str)) : option (list str * str) :=
  option_map (fun cr => (fst cr, snd cr ++ [LF])) m.

(** The continuation [k] fails on the empty string and gives on a string
    followed by a line feed what it gives on the string. *)
Definition lf_stable (k : str -> option (list str * str)) : Prop :=
  k [] = None /\ forall s, k (s ++ [LF]) = push_LF (k s).

(** * Properties *)

(** ** Strings *)

Lemma str_eqb_spec (s t : str) : reflect (s = t) (str_eqb s t).
Proof.
  revert t; induction s as [|a s IH]; intros [|b t]; simpl;
    try (constructor; congruence).
  destruct (Ascii.eqb_spec a b) as [->|Hab]; simpl.
  - destruct (IH t) as [->|Hst]; constructor; congruence.
  - constructor; congruence.
Qed.

Lemma str_eqb_refl (s : str) : str_eqb s s = true.
Proof. destruct (str_eqb_spec s s); congruence. Qed.

Lemma str_eqb_eq (s t : str) : str_eqb s t = true <-> s = t.
Proof. destruct (str_eqb_spec s t); split; congruence. Qed.

Lemma str_eqb_neq (s t : str) : str_eqb s t = false <-> s <> t.
Proof. destruct (str_eqb_spec s t); split; congruence. Qed.

(** ** The clique expansion *)

Lemma map_nth_seq {A} (l : list A) (d : A) :
  map (fun j => nth j l d) (seq 0 (length l)) = l.
Proof.
  induction l as [|x l IH]; simpl; [reflexivity|].
  rewrite <- seq_shift, map_map. simpl. now rewrite IH.
Qed.

Lemma clique_cons (x : str) (t : list str) :
  clique (x :: t) = map (pair x) t ++ clique t.
Proof.
  unfold clique. simpl length. rewrite <- cons_seq. simpl flat_map.
  f_equal.
  - rewrite Nat.sub_0_r, <- seq_shift, map_map. simpl.
    rewrite <- (map_nth_seq t []) at 2. now rewrite map_map.
  - rewrite <- seq_shift, flat_map_concat_map, map_map,
      <- flat_map_concat_map.
    apply flat_map_ext; intros i.
    replace (S i + 1) with (S (i + 1)) by lia.
    rewrite <- seq_shift, map_map. simpl.
    replace (length t - (i + 1)) with (length t - (i + 1)) by lia.
    reflexivity.
Qed.

Lemma clique_in (N : list str) (a b : str) :
  In (a, b) (clique N) <->
  exists i j, i < j /\ nth_error N i = Some a /\ nth_error N j = Some b.
Proof.
  induction N as [|x t IH].
  - split; [intros []|]. intros (i & j & _ & Hi & _). now destruct i.
  - rewrite clique_cons, in_app_iff, in_map_iff, IH. split.
    + intros [(y & Hy & Hin) | (i & j & Hlt & Hi & Hj)].
      * inversion Hy; subst. apply In_nth_error in Hin as [j Hj].
        exists 0, (S j). repeat split; [lia | assumption].
      * exists (S i), (S j). repeat split; [lia | assumption..].
    + intros (i & j & Hlt & Hi & Hj). destruct j as [|j]; [lia|].
      destruct i as [|i]; simpl in *.
      * left. exists b. split; [congruence|]. eapply nth_error_In; eauto.
      * right. exists i, j. repeat split; [lia | assumption..].
Qed.

Lemma clique_length (N : list str) :
  2 * length (clique N) = length N * (length N - 1).
Proof.
  assert (Harith : forall m n, 2 * m = n * (n - 1) -> 2 * (n + m) = S n * n).
  { intros m [|n] H; [lia|].
    rewrite Nat.sub_succ, Nat.sub_0_r in H. nia. }
  induction N as [|x t IH]; [reflexivity|].
  rewrite clique_cons, length_app, length_map. simpl length.
  rewrite Nat.sub_succ, Nat.sub_0_r. now apply Harith.
Qed.

Lemma clique_small (N : list str) : length N <= 1 -> clique N = [].
Proof.
  destruct N as [|x [|y t]]; simpl; intros H; [reflexivity | reflexivity | lia].
Qed.

(** ** The search: strict improvement over a list of candidates *)

Section StrictFold.
Context {A : Type} (path : A -> list str) (metric : A -> Z).

Lemma improve_keeps (cs : list A) (st : list str * Z) :
  Forall (fun x => (metric x <= snd st)%Z) cs ->
  fold_left (improve path metric) cs st = st.
Proof.
  induction 1 as [|x cs Hx _ IH]; simpl; [reflexivity|].
  unfold improve at 2. destruct (Z.gtb_spec (metric x) (snd st)); [lia|].
  exact IH.
Qed.

Lemma improve_below (cs : list A) (st : list str * Z) (M : Z) :
  Forall (fun x => (metric x < M)%Z) cs -> (snd st < M)%Z ->
  (snd (fold_left (improve path metric) cs st) < M)%Z.
Proof.
  intros H; revert st.
  induction H as [|x cs Hx _ IH]; simpl; intros st Hst; [assumption|].
  apply IH. unfold improve. now destruct (Z.gtb_spec (metric x) (snd st)).
Qed.

Lemma improve_earliest_max (cs : list A) (c : A) (st : list str * Z) :
  earliest_max metric cs c -> (snd st < metric c)%Z ->
  fold_left (improve path metric) cs st = (path c, metric c).
Proof.
  intros (l1 & l2 & -> & H1 & H2) Hst.
  rewrite fold_left_app. simpl.
  pose proof (improve_below l1 st (metric c) H1 Hst) as Hlt.
  unfold improve at 2.
  destruct (Z.gtb_spec (metric c)
              (snd (fold_left (improve path metric) l1 st))); [|lia].
  now apply improve_keeps.
Qed.
End StrictFold.

Lemma fold_left_flat_map {A B C} (f : A -> C -> A) (h : B -> list C)
    (l : list B) (a : A) :
  fold_left f (flat_map h l) a =
  fold_left (fun a x => fold_left f (h x) a) l a.
Proof.
  revert a; induction l as [|x l IH]; intros a; simpl; [reflexivity|].
  now rewrite fold_left_app, IH.
Qed.

Section SearchFacts.
Context {SP : ShortestPath}.

Lemma candidates_in (g : Graph) (u v : str) (p : list str) :
  In (u, v, p) (candidates g) <->
  In u (nodes g) /\ In v (nodes g) /\ u <> v /\
  shortest_path g u v = Some p.
Proof.
  unfold candidates. rewrite in_flat_map. split.
  - intros (u' & Hu & Hin). apply in_flat_map in Hin as (v' & Hv & Hin).
    unfold cand_of in Hin.
    destruct (str_eqb_spec u' v'); [destruct Hin|].
    destruct (shortest_path g u' v') eqn:E; [|destruct Hin].
    destruct Hin as [Heq|[]]. inversion Heq; subst. auto.
  - intros (Hu & Hv & Hne & Hsp). exists u. split; [assumption|].
    apply in_flat_map. exists v. split; [assumption|].
    unfold cand_of. destruct (str_eqb_spec u v); [contradiction|].
    rewrite Hsp. now left.
Qed.

Lemma edges_fold_gen (g : Graph) (l1 l2 : list str) (st : list str * Z) :
  fold_left
    (fun st node =>
       fold_left (fun st target => edges_visit g node target st) l2 st)
    l1 st =
  fold_left (improve cand_path (fun c => Z.of_nat (length (cand_path c))))
            (flat_map (fun u => flat_map (cand_of g u) l2) l1) st.
Proof.
  rewrite fold_left_flat_map.
  revert st; induction l1 as [|u l1 IH]; intros st; simpl; [reflexivity|].
  rewrite <- IH. f_equal. rewrite fold_left_flat_map.
  clear IH. revert st; induction l2 as [|v l2 IH]; intros st; simpl;
    [reflexivity|].
  rewrite <- IH. f_equal. unfold edges_visit, cand_of.
  destruct (str_eqb u v); [reflexivity|].
  now destruct (shortest_path g u v).
Qed.

Lemma edges_fold (g : Graph) :
  find_longest_path_by_edges g =
  let st :=
    fold_left (improve cand_path (fun c => Z.of_nat (length (cand_path c))))
              (candidates g) ([], 0%Z) in
  (fst st, (snd st - 1)%Z).
Proof.
  unfold find_longest_path_by_edges. now rewrite edges_fold_gen.
Qed.

Lemma bases_fold_gen (g : Graph) (bc : dict Z) (l1 l2 : list str)
    (st : list str * Z) :
  fold_left
    (fun st node =>
       fold_left (fun st target => bases_visit g bc node target st) l2 st)
    l1 st =
  fold_left (improve cand_path (fun c => base_sum bc (cand_path c)))
            (flat_map (fun u => flat_map (cand_of g u) l2) l1) st.
Proof.
  rewrite fold_left_flat_map.
  revert st; induction l1 as [|u l1 IH]; intros st; simpl; [reflexivity|].
  rewrite <- IH. f_equal. rewrite fold_left_flat_map.
  clear IH. revert st; induction l2 as [|v l2 IH]; intros st; simpl;
    [reflexivity|].
  rewrite <- IH. f_equal. unfold bases_visit, cand_of.
  destruct (str_eqb u v); [reflexivity|].
  now destruct (shortest_path g u v).
Qed.

Lemma bases_fold (g : Graph) (bc : dict Z) :
  find_longest_path_by_bases g bc =
  fold_left (improve cand_path (fun c => base_sum bc (cand_path c)))
            (candidates g) ([], 0%Z).
Proof.
  unfold find_longest_path_by_bases. now rewrite bases_fold_gen.
Qed.
End SearchFacts.

(** ** Paths *)

Lemma chain_cons (g : Graph) (x y : str) (t : list str) :
  chain g (x :: y :: t) <-> In y (adj g x) /\ chain g (y :: t).
Proof. reflexivity. Qed.

Lemma chain_tail (g : Graph) (x : str) (t : list str) :
  chain g (x :: t) -> chain g t.
Proof. destruct t as [|y t]; [trivial|]. now intros [_ H]. Qed.

Lemma chain_app_r (g : Graph) (l1 l2 : list str) :
  chain g (l1 ++ l2) -> chain g l2.
Proof.
  induction l1 as [|x l1 IH]; simpl app; [trivial|].
  intros H. apply IH. eapply chain_tail; eauto.
Qed.

Lemma last_cons_cons {A} (x y : A) (t : list A) (d : A) :
  last (x :: y :: t) d = last (y :: t) d.
Proof. reflexivity. Qed.

Lemma last_nonempty {A} (l : list A) (d d' : A) :
  l <> [] -> last l d = last l d'.
Proof.
  induction l as [|x [|y t] IH]; intros H; [congruence | reflexivity |].
  rewrite !last_cons_cons. apply IH. discriminate.
Qed.

Lemma last_app_cons {A} (l1 : list A) (x : A) (l2 : list A) (d : A) :
  last (l1 ++ x :: l2) d = last (x :: l2) d.
Proof.
  induction l1 as [|y l1 IH]; [reflexivity|].
  simpl app. destruct (l1 ++ x :: l2) eqn:E.
  - now destruct l1.
  - rewrite last_cons_cons. exact IH.
Qed.

Lemma is_path_nonempty (g : Graph) (u v : str) (p : list str) :
  is_path g u v p -> exists t, p = u :: t.
Proof.
  intros (Hh & _). destruct p as [|x t]; [discriminate|].
  inversion Hh; subst. now exists t.
Qed.

Lemma is_path_single (g : Graph) (u : str) : is_path g u u [u].
Proof. repeat split. Qed.

Lemma is_path_step (g : Graph) (u w v : str) (p : list str) :
  In w (adj g u) -> is_path g w v p -> is_path g u v (u :: p).
Proof.
  intros Hw Hp. destruct (is_path_nonempty _ _ _ _ Hp) as [t ->].
  destruct Hp as (_ & Hl & Hc). repeat split.
  - rewrite last_cons_cons. rewrite <- Hl. apply last_nonempty. discriminate.
  - assumption.
  - assumption.
Qed.

Lemma is_path_uncons (g : Graph) (u v w : str) (t : list str) :
  is_path g u v (u :: w :: t) ->
  In w (adj g u) /\ is_path g w v (w :: t).
Proof.
  intros (_ & Hl & Hin & Hc). split; [assumption|].
  repeat split; [|assumption].
  rewrite last_cons_cons in Hl. rewrite <- Hl. apply last_nonempty.
  discriminate.
Qed.

(** A path with a repeated node has a strictly shorter path beside it. *)
Lemma path_nodup_or_shorter (g : Graph) (p : list str) (u v : str) :
  is_path g u v p ->
  NoDup p \/ exists q, is_path g u v q /\ length q < length p.
Proof.
  revert u. induction p as [|x t IH]; intros u Hp.
  - destruct Hp as (Hh & _). discriminate.
  - destruct (is_path_nonempty _ _ _ _ Hp) as [t' Heq].
    inversion Heq; subst x t'. clear Heq.
    destruct (in_dec str_eq_dec u t) as [Hin|Hnin].
    + right. apply in_split in Hin as (l1 & l2 & ->).
      exists (u :: l2). split; [|simpl; rewrite length_app; simpl; lia].
      destruct Hp as (_ & Hl & Hc). repeat split.
      * rewrite <- Hl.
        change (u :: l1 ++ u :: l2) with ((u :: l1) ++ u :: l2).
        now rewrite last_app_cons.
      * change (u :: l1 ++ u :: l2) with ((u :: l1) ++ u :: l2) in Hc.
        eapply chain_app_r; eauto.
    + destruct t as [|w t].
      * left. constructor; [assumption | constructor].
      * apply is_path_uncons in Hp as (Hw & Hp').
        destruct (IH w Hp') as [Hnd | (q & Hq & Hlen)].
        -- left. now constructor.
        -- right. exists (u :: q). split.
           ++ eapply is_path_step; eauto.
           ++ simpl in *. lia.
Qed.

Lemma path_simple (g : Graph) (u v : str) (p : list str) :
  is_path g u v p ->
  exists q, is_path g u v q /\ NoDup q /\ length q <= length p.
Proof.
  remember (length p) as n eqn:Hn. revert p Hn.
  induction n as [n IH] using lt_wf_ind. intros p -> Hp.
  destruct (path_nodup_or_shorter _ _ _ _ Hp) as [Hnd | (q & Hq & Hlen)].
  - exists p. auto.
  - destruct (IH (length q) Hlen q eq_refl Hq) as (q' & Hq' & Hnd & Hle).
    exists q'. repeat split; [apply Hq'.. | assumption | lia].
Qed.

Lemma dict_find_in {V} (d : dict V) (k : str) (v : V) :
  dict_find d k = Some v -> In k (map fst d).
Proof.
  induction d as [|[k' v'] d IH]; simpl; [discriminate|].
  destruct (str_eqb_spec k' k); [now left | right; auto].
Qed.

Lemma adj_in_nodes (g : Graph) (u w : str) :
  In w (adj g u) -> In u (nodes g).
Proof.
  unfold adj, dict_get, nodes. destruct (dict_find g u) eqn:E; [|intros []].
  intros _. eapply dict_find_in; eauto.
Qed.

Lemma chain_init_nodes (g : Graph) (p : list str) :
  chain g p -> incl (removelast p) (nodes g).
Proof.
  induction p as [|x [|y t] IH]; intros Hc z Hz; [destruct Hz..|].
  change (removelast (x :: y :: t)) with (x :: removelast (y :: t)) in Hz.
  destruct Hc as [Hin Hc]. destruct Hz as [<-|Hz].
  - eapply adj_in_nodes; eauto.
  - now apply IH.
Qed.

Lemma NoDup_removelast {A} (l : list A) : NoDup l -> NoDup (removelast l).
Proof.
  induction 1 as [|x l Hx Hnd IH]; [constructor|].
  destruct l as [|y t]; [constructor|].
  change (removelast (x :: y :: t)) with (x :: removelast (y :: t)).
  constructor; [|assumption].
  intros Hin. apply Hx.
  rewrite (app_removelast_last y (l:=y :: t)) by discriminate.
  apply in_or_app. now left.
Qed.

Lemma path_bound (g : Graph) (p : list str) :
  chain g p -> NoDup p -> length p <= S (length g).
Proof.
  intros Hc Hnd. destruct p as [|x t]; [simpl; lia|].
  rewrite (app_removelast_last x (l:=x :: t)) by discriminate.
  rewrite length_app. simpl length at 2.
  pose proof (NoDup_incl_length (NoDup_removelast _ Hnd)
                (chain_init_nodes g _ Hc)) as Hle.
  unfold nodes in Hle. rewrite length_map in Hle. lia.
Qed.

(** ** The reference shortest-path routine meets the contract *)

Lemma first_some_found {A B} (f : A -> option B) (l : list A) (r : B) :
  first_some f l = Some r ->
  exists l1 x l2, l = l1 ++ x :: l2 /\ f x = Some r /\
                  Forall (fun y => f y = None) l1.
Proof.
  induction l as [|x l IH]; simpl; [discriminate|].
  destruct (f x) eqn:E.
  - intros H; inversion H; subst. exists [], x, l. auto.
  - intros H. destruct (IH H) as (l1 & y & l2 & -> & Hy & Hall).
    exists (x :: l1), y, l2. auto.
Qed.

Lemma first_some_none {A B} (f : A -> option B) (l : list A) :
  first_some f l = None <-> Forall (fun y => f y = None) l.
Proof.
  induction l as [|x l IH]; simpl.
  - split; auto.
  - destruct (f x) eqn:E; split.
    + discriminate.
    + intros H; inversion H; congruence.
    + intros H. constructor; [assumption | now apply IH].
    + intros H. inversion H; subst. now apply IH.
Qed.

Lemma walk_of_len_sound (g : Graph) (k : nat) (u v : str) (p : list str) :
  walk_of_len g k u v = Some p -> is_path g u v p /\ length p = S k.
Proof.
  revert u p. induction k as [|k IH]; intros u p; simpl.
  - destruct (str_eqb_spec u v) as [->|]; [|discriminate].
    intros H; inversion H; subst. split; [apply is_path_single | reflexivity].
  - intros H. apply first_some_found in H as (l1 & w & l2 & Hadj & Hw & _).
    destruct (walk_of_len g k w v) as [q|] eqn:E; [|discriminate].
    simpl in Hw. inversion Hw; subst p.
    destruct (IH _ _ E) as [Hq Hlen]. split; [|simpl; lia].
    eapply is_path_step; [|eassumption].
    rewrite Hadj. apply in_or_app. right. now left.
Qed.

Lemma walk_of_len_complete (g : Graph) (p : list str) (u v : str) :
  is_path g u v p -> walk_of_len g (length p - 1) u v <> None.
Proof.
  revert u. induction p as [|x t IH]; intros u Hp.
  - destruct Hp as (Hh & _). discriminate.
  - destruct (is_path_nonempty _ _ _ _ Hp) as [t' Heq].
    inversion Heq; subst x t'. clear Heq.
    destruct t as [|w t].
    + destruct Hp as (_ & Hl & _). simpl in *. subst.
      now rewrite str_eqb_refl.
    + apply is_path_uncons in Hp as (Hw & Hp').
      specialize (IH _ Hp'). simpl length in *.
      rewrite Nat.sub_succ, Nat.sub_0_r in *. simpl.
      intros Hnone. apply first_some_none in Hnone.
      rewrite Forall_forall in Hnone. specialize (Hnone w Hw).
      destruct (walk_of_len g (length t) w v); [discriminate | congruence].
Qed.

Lemma first_some_seq {B} (f : nat -> option B) (a n : nat) (r : B) :
  first_some f (seq a n) = Some r ->
  exists k, a <= k < a + n /\ f k = Some r /\
            forall j, a <= j < k -> f j = None.
Proof.
  revert a. induction n as [|n IH]; intros a; simpl; [discriminate|].
  destruct (f a) eqn:E.
  - intros H; inversion H; subst. exists a. repeat split; [lia.. | assumption |].
    intros j Hj. lia.
  - intros H. destruct (IH _ H) as (k & Hk & Hfk & Hmin).
    exists k. repeat split; [lia.. | assumption |].
    intros j Hj. destruct (Nat.eq_dec j a) as [->|]; [assumption|].
    apply Hmin. lia.
Qed.

Lemma ref_found (g : Graph) (u v : str) (p : list str) :
  ref_shortest_path g u v = Some p ->
  exists k, walk_of_len g k u v = Some p /\
            forall j, j < k -> walk_of_len g j u v = None.
Proof.
  unfold ref_shortest_path. intros H.
  apply first_some_seq in H as (k & _ & Hk & Hmin).
  exists k. split; [assumption|]. intros j Hj. apply Hmin. lia.
Qed.

#[export] Instance ref_shortest : ShortestPath.
Proof.
  refine {| shortest_path := ref_shortest_path |}.
  - intros g u v p _ _ H. apply ref_found in H as (k & Hk & _).
    now apply walk_of_len_sound in Hk.
  - intros g u v p q _ _ H Hq. apply ref_found in H as (k & Hk & Hmin).
    apply walk_of_len_sound in Hk as [_ Hlen].
    destruct (Nat.le_gt_cases (length p) (length q)) as [|Hlt]; [assumption|].
    exfalso. apply (walk_of_len_complete _ _ _ _ Hq). apply Hmin.
    destruct (is_path_nonempty _ _ _ _ Hq) as [t ->]. simpl in *. lia.
  - intros g u v q _ _ Hq Hnone.
    destruct (path_simple _ _ _ _ Hq) as (q' & Hq' & Hnd & _).
    apply first_some_none in Hnone. rewrite Forall_forall in Hnone.
    apply (walk_of_len_complete _ _ _ _ Hq'). apply Hnone.
    apply in_seq. destruct Hq' as (Hh & _ & Hc).
    pose proof (path_bound g q' Hc Hnd).
    destruct q'; [discriminate|]. simpl in *. lia.
Defined.

(** ** The sample graphs *)

Example row3_parsed :
  row3 = [(py "n1", [py "n2"]); (py "n2", [py "n1"; py "n3"]);
          (py "n3", [py "n2"])] /\
  row3_bases = [(py "n1", 3%Z); (py "n2", 5%Z); (py "n3", 2%Z)].
Proof. split; reflexivity. Qed.

Example row3_by_edges :
  find_longest_path_by_edges row3 = ([py "n1"; py "n2"; py "n3"], 2%Z).
Proof. reflexivity. Qed.

Example row3_by_bases :
  find_longest_path_by_bases row3 row3_bases =
  ([py "n1"; py "n2"; py "n3"], 10%Z).
Proof. reflexivity. Qed.

(** ** The two searches *)

Lemma earliest_max_exists {A} (metric : A -> Z) (cs : list A) :
  cs <> [] -> exists c, earliest_max metric cs c.
Proof.
  induction cs as [|x t IH]; [congruence|]. intros _.
  destruct t as [|y t].
  - exists x, [], []. repeat split; constructor.
  - destruct IH as (c & l1 & l2 & Heq & H1 & H2); [discriminate|].
    destruct (Z_lt_le_dec (metric x) (metric c)) as [Hlt|Hle].
    + exists c, (x :: l1), l2. rewrite Heq. repeat split; auto.
    + exists x, [], (y :: t). repeat split; [constructor|].
      rewrite Heq. apply Forall_app. split.
      * eapply Forall_impl; [|exact H1]. simpl. intros; lia.
      * constructor; [assumption|].
        eapply Forall_impl; [|exact H2]. simpl. intros; lia.
Qed.

Lemma earliest_max_in {A} (metric : A -> Z) (cs : list A) (c : A) :
  earliest_max metric cs c -> In c cs.
Proof.
  intros (l1 & l2 & -> & _). apply in_or_app. right. now left.
Qed.

Lemma earliest_max_le {A} (metric : A -> Z) (cs : list A) (c x : A) :
  earliest_max metric cs c -> In x cs -> (metric x <= metric c)%Z.
Proof.
  intros (l1 & l2 & -> & H1 & H2) Hin.
  rewrite Forall_forall in H1, H2.
  apply in_app_or in Hin as [Hin | [<- | Hin]];
    [apply H1 in Hin; lia | lia | now apply H2].
Qed.

Lemma earliest_max_shift {A} (m1 m2 : A -> Z) (cs : list A) (c : A) :
  (forall x, m2 x = m1 x + 1)%Z ->
  earliest_max m1 cs c -> earliest_max m2 cs c.
Proof.
  intros Hm (l1 & l2 & -> & H1 & H2). exists l1, l2.
  repeat split; [eapply Forall_impl; [|exact H1] |
                 eapply Forall_impl; [|exact H2]];
    simpl; intros x Hx; rewrite !Hm; lia.
Qed.

Section SearchResults.
Context {SP : ShortestPath}.

Lemma candidate_path (g : Graph) (c : str * str * list str) :
  In c (candidates g) ->
  In (fst (fst c)) (nodes g) /\ In (snd (fst c)) (nodes g) /\
  fst (fst c) <> snd (fst c) /\
  shortest_path g (fst (fst c)) (snd (fst c)) = Some (cand_path c).
Proof. destruct c as [[u v] p]. apply candidates_in. Qed.

Lemma candidate_nonempty (g : Graph) (c : str * str * list str) :
  In c (candidates g) -> (0 <= edge_metric c)%Z.
Proof.
  intros Hin. apply candidate_path in Hin as (Hu & Hv & _ & Hsp).
  apply sp_path in Hsp; [|assumption..].
  apply is_path_nonempty in Hsp as [t Ht].
  unfold edge_metric, edge_count. rewrite Ht. simpl length. lia.
Qed.

Lemma by_edges_earliest (g : Graph) (c : str * str * list str) :
  earliest_max edge_metric (candidates g) c ->
  find_longest_path_by_edges g = (cand_path c, edge_metric c).
Proof.
  intros Hmax. rewrite edges_fold.
  pose proof (candidate_nonempty g c (earliest_max_in _ _ _ Hmax)) as Hpos.
  rewrite (improve_earliest_max cand_path _ (candidates g) c).
  - simpl. unfold edge_metric, edge_count. f_equal.
  - eapply earliest_max_shift; [|exact Hmax].
    intros x. unfold edge_metric, edge_count. lia.
  - unfold edge_metric, edge_count in Hpos. simpl. lia.
Qed.

Lemma by_bases_earliest (g : Graph) (bc : dict Z)
    (c : str * str * list str) :
  earliest_max (base_metric bc) (candidates g) c ->
  (0 < base_metric bc c)%Z ->
  find_longest_path_by_bases g bc = (cand_path c, base_metric bc c).
Proof.
  intros Hmax Hpos. rewrite bases_fold.
  now apply (improve_earliest_max cand_path (base_metric bc)).
Qed.

Lemma by_bases_none (g : Graph) (bc : dict Z) :
  Forall (fun c => (base_metric bc c <= 0)%Z) (candidates g) ->
  find_longest_path_by_bases g bc = ([], 0%Z).
Proof.
  intros H. rewrite bases_fold.
  now apply (improve_keeps cand_path (base_metric bc)).
Qed.

Lemma no_path_no_candidates (g : Graph) :
  (forall u v p, In u (nodes g) -> In v (nodes g) -> u <> v ->
                 ~ is_path g u v p) ->
  candidates g = [].
Proof.
  intros Hno. destruct (candidates g) as [|[[u v] p] t] eqn:E;
    [reflexivity|].
  assert (Hin : In (u, v, p) (candidates g)) by (rewrite E; now left).
  apply candidates_in in Hin as (Hu & Hv & Hne & Hsp).
  apply sp_path in Hsp; [|assumption..]. now apply Hno in Hsp.
Qed.
End SearchResults.

(** ** Claims about the longest-path search *)

(** C1. When no two distinct nodes of the graph are joined by a path (in
    particular when the graph has fewer than two nodes) both searches return
    the empty path; the search by bases returns it with metric 0, the search
    by edges with metric -1, one less than the 0 the specification states:
    [max_length] is still 0 when 1 is subtracted from it. *)
Theorem no_path_results {SP : ShortestPath} (g : Graph) (bc : dict Z) :
  (forall u v p, In u (nodes g) -> In v (nodes g) -> u <> v ->
                 ~ is_path g u v p) ->
  find_longest_path_by_edges g = ([], (-1)%Z) /\
  find_longest_path_by_bases g bc = ([], 0%Z).
Proof.
  intros Hno. apply no_path_no_candidates in Hno.
  rewrite edges_fold, bases_fold, Hno. split; reflexivity.
Qed.

Lemma no_path_results_witness :
  find_longest_path_by_edges loop1 = ([], (-1)%Z) /\
  find_longest_path_by_bases loop1 [] = ([], 0%Z).
Proof.
  apply (no_path_results loop1 []).
  intros u v p [<-|[]] [<-|[]] Hne. now contradiction Hne.
Defined.

(** C4 (as stated, refuted). In the search by bases the path of the earliest
    pair attaining the maximum is not returned when that maximum is 0. *)
Lemma earliest_max_not_always_returned :
  ~ (forall (g : Graph) (bc : dict Z) (c : str * str * list str),
        earliest_max (base_metric bc) (candidates g) c ->
        fst (find_longest_path_by_bases g bc) = cand_path c).
Proof.
  intros H.
  specialize (H pair0 pair0_bases (py "n1", py "n2", [py "n1"; py "n2"])).
  assert (Hmax : earliest_max (base_metric pair0_bases) (candidates pair0)
                   (py "n1", py "n2", [py "n1"; py "n2"])).
  { exists [], [(py "n2", py "n1", [py "n2"; py "n1"])].
    repeat split; [constructor|].
    constructor; [vm_compute; discriminate | constructor]. }
  specialize (H Hmax). vm_compute in H. discriminate.
Qed.

(** C4 (amended). The best candidate is replaced only on strict improvement.
    The search by edges returns the path of the earliest ordered pair, in the
    order of the loops, whose edge count is the maximum; the search by bases
    returns the path of the earliest pair whose base sum is the maximum when
    that sum is positive, and the empty path with metric 0 when no base sum
    is. *)
Theorem strict_improvement_earliest {SP : ShortestPath} (g : Graph)
    (bc : dict Z) (c : str * str * list str) :
  (earliest_max edge_metric (candidates g) c ->
   find_longest_path_by_edges g = (cand_path c, edge_metric c)) /\
  (earliest_max (base_metric bc) (candidates g) c ->
   (0 < base_metric bc c)%Z ->
   find_longest_path_by_bases g bc = (cand_path c, base_metric bc c)) /\
  (Forall (fun x => (base_metric bc x <= 0)%Z) (candidates g) ->
   find_longest_path_by_bases g bc = ([], 0%Z)).
Proof.
  split; [apply by_edges_earliest|].
  split; [apply by_bases_earliest | apply by_bases_none].
Qed.

Lemma strict_improvement_earliest_witness :
  find_longest_path_by_edges row3 = ([py "n1"; py "n2"; py "n3"], 2%Z) /\
  find_longest_path_by_bases row3 row3_bases =
    ([py "n1"; py "n2"; py "n3"], 10%Z) /\
  find_longest_path_by_bases pair0 pair0_bases = ([], 0%Z).
Proof.
  pose (c := (py "n1", py "n3", [py "n1"; py "n2"; py "n3"])).
  assert (Hsplit : candidates row3 =
            [(py "n1", py "n2", [py "n1"; py "n2"])] ++ c ::
            [(py "n2", py "n1", [py "n2"; py "n1"]);
             (py "n2", py "n3", [py "n2"; py "n3"]);
             (py "n3", py "n1", [py "n3"; py "n2"; py "n1"]);
             (py "n3", py "n2", [py "n3"; py "n2"])]) by reflexivity.
  split; [|split].
  - apply (proj1 (strict_improvement_earliest row3 row3_bases c)).
    eexists _, _. split; [exact Hsplit|].
    split; repeat constructor; vm_compute; congruence.
  - apply (proj1 (proj2 (strict_improvement_earliest row3 row3_bases c))).
    + eexists _, _. split; [exact Hsplit|].
      split; repeat constructor; vm_compute; congruence.
    + reflexivity.
  - apply (proj2 (proj2 (strict_improvement_earliest pair0 pair0_bases c))).
    repeat constructor; vm_compute; congruence.
Defined.

(** C5. In a connected graph with two distinct nodes (every tree with at
    least two nodes is one; the absence of cycles is not needed) the search by
    edges returns a path [p] and a metric [m] such that [p] leads from a node
    [a] to a node [b] along edges of the graph, repeats no node, [m] is the
    distance from [a] to [b], and [m] is the diameter of the graph. *)
Theorem longest_by_edges_diameter {SP : ShortestPath} (g : Graph) :
  connected g ->
  (exists u v, In u (nodes g) /\ In v (nodes g) /\ u <> v) ->
  exists a b,
    In a (nodes g) /\ In b (nodes g) /\
    is_path g a b (fst (find_longest_path_by_edges g)) /\
    NoDup (fst (find_longest_path_by_edges g)) /\
    dist g a b (snd (find_longest_path_by_edges g)) /\
    diameter g (snd (find_longest_path_by_edges g)).
Proof.
  intros Hconn (u0 & v0 & Hu0 & Hv0 & Hne0).
  assert (Hcs : candidates g <> []).
  { destruct (Hconn u0 v0 Hu0 Hv0) as [q Hq].
    destruct (shortest_path g u0 v0) as [p0|] eqn:E.
    - intros Hnil.
      assert (Hin : In (u0, v0, p0) (candidates g))
        by (apply candidates_in; auto).
      now rewrite Hnil in Hin.
    - now apply (sp_found g u0 v0 q) in E. }
  destruct (earliest_max_exists edge_metric _ Hcs) as [[[a b] p] Hmax].
  rewrite (by_edges_earliest g _ Hmax). simpl fst. simpl snd.
  unfold edge_metric, cand_path. simpl snd.
  pose proof (earliest_max_in _ _ _ Hmax) as Hin.
  apply candidates_in in Hin as (Ha & Hb & Hab & Hsp).
  pose proof (sp_path g a b p Ha Hb Hsp) as Hp.
  assert (Hd : dist g a b (edge_count p)).
  { split; [now exists p|]. intros q Hq.
    pose proof (sp_shortest g a b p q Ha Hb Hsp Hq). unfold edge_count. lia. }
  exists a, b.
  split; [assumption|]. split; [assumption|]. split; [assumption|].
  split; [|split; [assumption|split]].
  - destruct (path_nodup_or_shorter g p a b Hp) as [Hnd|(q & Hq & Hlt)];
      [assumption|].
    pose proof (sp_shortest g a b p q Ha Hb Hsp Hq). lia.
  - exists a, b. auto.
  - intros x y d Hx Hy ((q & Hq & Hqd) & Hmin).
    destruct (str_eq_dec x y) as [->|Hxy].
    + specialize (Hmin [y] (is_path_single g y)).
      destruct (is_path_nonempty _ _ _ _ Hp) as [t ->].
      unfold edge_count in *. simpl length in *. lia.
    + destruct (shortest_path g x y) as [p'|] eqn:E;
        [|now apply (sp_found g x y q) in E].
      assert (Hin : In (x, y, p') (candidates g))
        by (apply candidates_in; auto).
      pose proof (earliest_max_le _ _ _ _ Hmax Hin) as Hle.
      pose proof (Hmin p' (sp_path g x y p' Hx Hy E)).
      unfold edge_metric, cand_path in Hle. simpl in Hle. lia.
Qed.

Ltac concrete_path l :=
  exists l; repeat split; vm_compute; auto.

Lemma row3_connected : connected row3.
Proof.
  intros u v [<-|[<-|[<-|[]]]] [<-|[<-|[<-|[]]]].
  - concrete_path [py "n1"].
  - concrete_path [py "n1"; py "n2"].
  - concrete_path [py "n1"; py "n2"; py "n3"].
  - concrete_path [py "n2"; py "n1"].
  - concrete_path [py "n2"].
  - concrete_path [py "n2"; py "n3"].
  - concrete_path [py "n3"; py "n2"; py "n1"].
  - concrete_path [py "n3"; py "n2"].
  - concrete_path [py "n3"].
Qed.

Lemma longest_by_edges_diameter_witness :
  exists a b,
    In a (nodes row3) /\ In b (nodes row3) /\
    is_path row3 a b (fst (find_longest_path_by_edges row3)) /\
    NoDup (fst (find_longest_path_by_edges row3)) /\
    dist row3 a b (snd (find_longest_path_by_edges row3)) /\
    diameter row3 (snd (find_longest_path_by_edges row3)).
Proof.
  apply (longest_by_edges_diameter row3 row3_connected).
  exists (py "n1"), (py "n2").
  split; [now left | split; [right; now left | discriminate]].
Defined.

(** C10. There is a connected graph with two nodes, joined by an edge, for
    which the search by bases returns the empty path with metric 0 although
    shortest paths between its nodes are found: a base sum of 0 never
    exceeds the initial best. *)
Theorem by_bases_empty_on_connected {SP : ShortestPath} :
  exists (g : Graph) (bc : dict Z),
    connected g /\ NoDup (nodes g) /\ 2 <= length (nodes g) /\
    (exists u v p, In u (nodes g) /\ In v (nodes g) /\ u <> v /\
                   shortest_path g u v = Some p) /\
    (forall p, base_sum bc p = 0%Z) /\
    find_longest_path_by_bases g bc = ([], 0%Z).
Proof.
  exists pair0, pair0_bases.
  assert (H12 : In (py "n2") (adj pair0 (py "n1"))) by (now left).
  assert (H21 : In (py "n1") (adj pair0 (py "n2"))) by (now left).
  assert (Hzero : forall p, base_sum pair0_bases p = 0%Z).
  { intros p. unfold base_sum.
    assert (Hget : forall n, dict_get pair0_bases n 0%Z = 0%Z).
    { intros n. replace pair0_bases with [(py "n1", 0%Z)] by reflexivity.
      unfold dict_get, dict_find.
      now destruct (str_eqb (py "n1") n). }
    induction p as [|n p IH]; [reflexivity|]. simpl. now rewrite Hget. }
  split; [|split; [|split; [|split; [|split]]]].
  - intros u v [<-|[<-|[]]] [<-|[<-|[]]].
    + concrete_path [py "n1"].
    + concrete_path [py "n1"; py "n2"].
    + concrete_path [py "n2"; py "n1"].
    + concrete_path [py "n2"].
  - repeat constructor; simpl; intuition discriminate.
  - simpl. lia.
  - assert (Hp : is_path pair0 (py "n1") (py "n2") [py "n1"; py "n2"]).
    { eapply is_path_step; [eassumption | apply is_path_single]. }
    destruct (shortest_path pair0 (py "n1") (py "n2")) as [p|] eqn:E.
    + exists (py "n1"), (py "n2"), p.
      repeat split; [now left | right; now left | discriminate | assumption].
    + apply (sp_found pair0 _ _ _) in Hp; [contradiction | now left |].
      right; now left.
  - exact Hzero.
  - apply by_bases_none. apply Forall_forall. intros c _.
    unfold base_metric. rewrite Hzero. lia.
Qed.

(** ** The pattern matcher *)

Section BacktrackFacts.
Context {R : Type}.
Implicit Types (c : ascii -> bool) (k : str -> option R).

Lemma greedy_some c k s r :
  greedy c k s = Some r ->
  exists t rest, s = t ++ rest /\ all_in c t /\ k rest = Some r.
Proof.
  induction s as [|x s IH]; simpl.
  - intros H. exists [], []. repeat split; [constructor | assumption].
  - destruct (c x) eqn:Ex.
    + destruct (greedy c k s) as [r'|] eqn:E.
      * intros H; inversion H; subst r'.
        destruct (IH eq_refl) as (t & rest & -> & Ht & Hk).
        exists (x :: t), rest. repeat split; [now constructor | assumption].
      * intros H. exists [], (x :: s). repeat split; [constructor|assumption].
    + intros H. exists [], (x :: s). repeat split; [constructor|assumption].
Qed.

Lemma greedy_none c k s :
  greedy c k s = None ->
  forall t rest, s = t ++ rest -> all_in c t -> k rest = None.
Proof.
  induction s as [|x s IH]; simpl; intros H t rest Heq Ht.
  - symmetry in Heq. apply app_eq_nil in Heq as [-> ->]. assumption.
  - destruct t as [|y t]; simpl in Heq.
    + subst rest. destruct (c x); [|assumption].
      now destruct (greedy c k s).
    + inversion Heq; subst y s. inversion Ht as [|? ? Hy Ht']; subst.
      rewrite Hy in H. destruct (greedy c k (t ++ rest)) eqn:E;
        [discriminate|].
      now apply (IH eq_refl t rest).
Qed.

(** The longest run wins when the rest of the pattern accepts after it. *)
Lemma greedy_run c k t rest r :
  all_in c t -> greedy c k rest = Some r ->
  greedy c k (t ++ rest) = Some r.
Proof.
  induction 1 as [|x t Hx _ IH]; intros H; simpl; [assumption|].
  now rewrite Hx, IH.
Qed.

Lemma greedy_stop c k s :
  match s with x :: _ => c x = false | [] => True end ->
  greedy c k s = k s.
Proof. destruct s as [|x s]; simpl; [reflexivity|]. now intros ->. Qed.

Lemma lazy_some c k s r :
  lazy_run c k s = Some r ->
  exists t rest, s = t ++ rest /\ all_in c t /\ k rest = Some r.
Proof.
  induction s as [|x s IH]; simpl.
  - destruct (k []) eqn:E; [|discriminate].
    intros H; inversion H; subst. exists [], [].
    repeat split; [constructor | assumption].
  - destruct (k (x :: s)) eqn:E.
    + intros H; inversion H; subst. exists [], (x :: s).
      repeat split; [constructor | assumption].
    + destruct (c x) eqn:Ex; [|discriminate].
      intros H. destruct (IH H) as (t & rest & -> & Ht & Hk).
      exists (x :: t), rest. repeat split; [now constructor | assumption].
Qed.

Lemma lazy_none c k s :
  lazy_run c k s = None ->
  forall t rest, s = t ++ rest -> all_in c t -> k rest = None.
Proof.
  induction s as [|x s IH]; simpl; intros H t rest Heq Ht.
  - symmetry in Heq. apply app_eq_nil in Heq as [-> ->].
    now destruct (k []).
  - destruct (k (x :: s)) eqn:E; [discriminate|].
    destruct t as [|y t]; simpl in Heq.
    + now subst rest.
    + inversion Heq; subst y s. inversion Ht as [|? ? Hy Ht']; subst.
      rewrite Hy in H. now apply (IH H t rest).
Qed.

Implicit Types (kc : str -> str -> option R).

Lemma greedy_cap_some c kc acc s r :
  greedy_cap c kc acc s = Some r ->
  exists t rest, s = t ++ rest /\ all_in c t /\ kc (acc ++ t) rest = Some r.
Proof.
  revert acc. induction s as [|x s IH]; simpl; intros acc.
  - intros H. exists [], []. rewrite (app_nil_r acc).
    repeat split; [constructor | assumption].
  - assert (Hbase : kc acc (x :: s) = Some r ->
              exists t rest, x :: s = t ++ rest /\ all_in c t /\
                             kc (acc ++ t) rest = Some r).
    { intros H. exists [], (x :: s). rewrite (app_nil_r acc).
      repeat split; [constructor | assumption]. }
    destruct (c x) eqn:Ex; [|assumption].
    destruct (greedy_cap c kc (acc ++ [x]) s) as [r'|] eqn:E; [|assumption].
    intros H; inversion H; subst r'.
    destruct (IH _ E) as (t & rest & -> & Ht & Hk).
    exists (x :: t), rest. rewrite <- app_assoc in Hk.
    repeat split; [now constructor | assumption].
Qed.

Lemma greedy_cap_none c kc acc s :
  greedy_cap c kc acc s = None ->
  forall t rest, s = t ++ rest -> all_in c t -> kc (acc ++ t) rest = None.
Proof.
  revert acc. induction s as [|x s IH]; simpl; intros acc H t rest Heq Ht.
  - symmetry in Heq. apply app_eq_nil in Heq as [-> ->].
    now rewrite app_nil_r.
  - destruct t as [|y t]; simpl in Heq.
    + subst rest. rewrite app_nil_r. destruct (c x); [|assumption].
      now destruct (greedy_cap c kc (acc ++ [x]) s).
    + inversion Heq; subst y s. inversion Ht as [|? ? Hy Ht']; subst.
      rewrite Hy in H.
      destruct (greedy_cap c kc (acc ++ [x]) (t ++ rest)) eqn:E;
        [discriminate|].
      specialize (IH _ E t rest eq_refl Ht').
      now rewrite <- app_assoc in IH.
Qed.

Lemma greedy_cap_run c kc acc t rest r :
  all_in c t -> greedy_cap c kc (acc ++ t) rest = Some r ->
  greedy_cap c kc acc (t ++ rest) = Some r.
Proof.
  intros Ht; revert acc. induction Ht as [|x t Hx _ IH]; intros acc H.
  - now rewrite app_nil_r in H.
  - simpl. rewrite Hx, IH; [reflexivity|]. now rewrite <- app_assoc.
Qed.

Lemma greedy_cap_stop c kc acc s :
  match s with x :: _ => c x = false | [] => True end ->
  greedy_cap c kc acc s = kc acc s.
Proof. destruct s as [|x s]; simpl; [reflexivity|]. now intros ->. Qed.
End BacktrackFacts.

Lemma run_sound (r : regex) (caps : list str) (s : str)
    (caps' : list str) (rest : str) :
  run r caps s = Some (caps', rest) -> matches r caps s caps' rest.
Proof.
  revert caps s. induction r as [|i r IH]; intros caps s; simpl.
  - intros H; inversion H; subst. constructor.
  - destruct i as [a|c|c|c|c|c].
    + destruct s as [|x s]; [discriminate|].
      destruct (Ascii.eqb_spec x a) as [->|]; [|discriminate].
      intros H. constructor. now apply IH.
    + destruct s as [|x s]; [discriminate|].
      destruct (c x) eqn:Ex; [|discriminate].
      intros H. constructor; [assumption | now apply IH].
    + intros H. apply greedy_some in H as (t & s' & -> & Ht & Hk).
      constructor; [assumption | now apply IH].
    + destruct s as [|x s]; [discriminate|].
      destruct (c x) eqn:Ex; [|discriminate].
      intros H. apply greedy_some in H as (t & s' & -> & Ht & Hk).
      apply (m_plus c (x :: t)); [discriminate | now constructor |].
      now apply IH.
    + intros H. apply lazy_some in H as (t & s' & -> & Ht & Hk).
      constructor; [assumption | now apply IH].
    + destruct s as [|x s]; [discriminate|].
      destruct (c x) eqn:Ex; [|discriminate].
      intros H. apply greedy_cap_some in H as (t & s' & -> & Ht & Hk).
      apply (m_cap c (x :: t)); [discriminate | now constructor |].
      now apply IH.
Qed.

Lemma run_complete (r : regex) (caps : list str) (s : str)
    (caps' : list str) (rest : str) :
  matches r caps s caps' rest -> run r caps s <> None.
Proof.
  induction 1 as [caps s | a r caps s caps' rest _ IH
                 | c x r caps s caps' rest Hx _ IH
                 | c t r caps s caps' rest Ht _ IH
                 | c t r caps s caps' rest Hne Ht _ IH
                 | c t r caps s caps' rest Ht _ IH
                 | c t r caps s caps' rest Hne Ht _ IH]; simpl.
  - discriminate.
  - now rewrite Ascii.eqb_refl.
  - now rewrite Hx.
  - intros Hn. apply IH. eapply greedy_none; eauto.
  - destruct t as [|x t]; [congruence|].
    inversion Ht as [|? ? Hx Ht']; subst. simpl. rewrite Hx.
    intros Hn. apply IH. eapply greedy_none; eauto.
  - intros Hn. apply IH. eapply lazy_none; eauto.
  - destruct t as [|x t]; [congruence|].
    inversion Ht as [|? ? Hx Ht']; subst. simpl. rewrite Hx.
    intros Hn. apply IH.
    apply (greedy_cap_none c _ [x] (t ++ s) Hn t s eq_refl Ht').
Qed.

(** ** The edge pattern *)

Lemma edge_run_shape (l : str) (caps : list str) (rest : str) :
  run edge_pattern [] l = Some (caps, rest) ->
  exists a b, caps = [a; b] /\ edge_shape l a b rest.
Proof.
  intros H. apply run_sound in H. unfold edge_pattern in H.
  inversion H as [| | |c0 ws r0 caps0 s0 caps0' rest0 Hws H1| | |]; subst.
  clear H.
  inversion H1 as [| | | | | |c1 a r1 caps1 s1' caps1' rest1 Hane Ha H2]; subst.
  clear H1.
  inversion H2 as [| |c2 x2 r2 caps2 s2' caps2' rest2 Hx2 H3| | | |]; subst.
  clear H2.
  inversion H3; subst. clear H3.
  match goal with Hm : matches (Lit _ :: _) _ _ _ _ |- _ =>
    inversion Hm; subst; clear Hm end.
  match goal with Hm : matches (One _ :: _) _ _ _ _ |- _ =>
    inversion Hm as [| |c5 x5 r5 caps5 s5' caps5' rest5 Hx5 H6| | | |];
    subst; clear Hm end.
  inversion H6 as [| | | | | |c6 b r6 caps6 s6' caps6' rest6 Hbne Hb H7]; subst.
  clear H6.
  inversion H7; subst. clear H7.
  match goal with Hm : matches [] _ _ _ _ |- _ =>
    inversion Hm; subst; clear Hm end.
  exists a, b. split; [reflexivity|].
  exists ws, x2, x5. repeat split; assumption.
Qed.

Lemma edge_match_shape (l a b : str) :
  edge_match l = Some (a, b) -> exists rest, edge_shape l a b rest.
Proof.
  unfold edge_match, re_match.
  destruct (run edge_pattern [] l) as [[caps rest]|] eqn:E; [|discriminate].
  destruct (edge_run_shape _ _ _ E) as (a' & b' & -> & Hs).
  simpl. intros H; inversion H; subst. now exists rest.
Qed.

Lemma edge_shape_match (l a b rest : str) :
  edge_shape l a b rest -> edge_match l <> None.
Proof.
  intros (ws & s1 & s2 & -> & Hws & Hane & Ha & Hs1 & Hs2 & Hbne & Hb).
  assert (Hm : matches edge_pattern []
                 (ws ++ a ++ s1 :: "-"%char :: "-"%char :: s2 :: b ++
                  ";"%char :: rest) [a; b] rest).
  { unfold edge_pattern. constructor; [assumption|].
    constructor; [assumption..|]. constructor; [assumption|].
    do 2 constructor. constructor; [assumption|].
    constructor; [assumption..|]. do 2 constructor. }
  apply run_complete in Hm. unfold edge_match, re_match.
  destruct (run edge_pattern [] _) as [[caps rest']|] eqn:E; [|congruence].
  destruct (edge_run_shape _ _ _ E) as (a' & b' & -> & _). discriminate.
Qed.

Lemma non_space_false (x : ascii) : is_space x = true -> non_space x = false.
Proof. unfold non_space. now intros ->. Qed.

Lemma non_space_not_space (x : ascii) :
  non_space x = true -> is_space x = false.
Proof. unfold non_space. now destruct (is_space x). Qed.

(** What the matcher returns on an edge line that ends after its [;], or
    goes on with white space: the two tokens. *)
Lemma edge_match_exact (ws a b rest : str) (s1 s2 : ascii) :
  all_in is_space ws ->
  a <> [] -> all_in non_space a ->
  is_space s1 = true -> is_space s2 = true ->
  b <> [] -> all_in non_space b ->
  match rest with x :: _ => is_space x = true | [] => True end ->
  edge_match
    (ws ++ a ++ s1 :: "-"%char :: "-"%char :: s2 :: b ++ ";"%char :: rest)
  = Some (a, b).
Proof.
  intros Hws Hane Ha Hs1 Hs2 Hbne Hb Hrest.
  destruct a as [|x a']; [congruence|]. destruct b as [|y b']; [congruence|].
  inversion Ha as [|? ? Hx Ha']; subst. inversion Hb as [|? ? Hy Hb']; subst.
  unfold edge_match, re_match, edge_pattern.
  cbn [run].
  rewrite (greedy_run is_space _ ws _ ([x :: a'; y :: b'], rest) Hws);
    [reflexivity|].
  rewrite greedy_stop by (simpl; now apply non_space_not_space).
  cbn [run app]. rewrite Hx.
  apply greedy_cap_run; [assumption|].
  rewrite greedy_cap_stop by (now apply non_space_false).
  cbn [run app]. rewrite Hs1, Hs2.
  rewrite Hy.
  apply greedy_cap_run; [assumption|].
  cbn [greedy_cap].
  replace (non_space ";"%char) with true by reflexivity.
  rewrite greedy_cap_stop
    by (destruct rest; [exact I | now apply non_space_false]).
  destruct rest as [|z rest]; cbn [run].
  - reflexivity.
  - destruct (Ascii.eqb_spec z ";"%char) as [->|]; [discriminate Hrest|].
    rewrite Ascii.eqb_refl. reflexivity.
Qed.

(** ** Dictionaries and graphs *)

Lemma dict_find_upd {V} (d : dict V) (k k' : str) (init : V) (f : V -> V) :
  dict_find (dict_upd d k init f) k' =
  if str_eqb k k' then Some (f (dict_get d k init)) else dict_find d k'.
Proof.
  unfold dict_get. induction d as [|[k0 v0] d IH]; simpl.
  - reflexivity.
  - destruct (str_eqb_spec k0 k) as [->|Hne]; simpl.
    + destruct (str_eqb_spec k k'); reflexivity.
    + rewrite IH. destruct (str_eqb_spec k0 k') as [->|Hne'].
      * destruct (str_eqb_spec k k'); [congruence | reflexivity].
      * reflexivity.
Qed.

Lemma dict_find_app {V} (d1 d2 : dict V) (k : str) :
  dict_find (d1 ++ d2) k =
  match dict_find d1 k with
  | Some v => Some v
  | None => dict_find d2 k
  end.
Proof.
  induction d1 as [|[k0 v0] d1 IH]; simpl; [reflexivity|].
  now destruct (str_eqb k0 k).
Qed.

Lemma adj_add_node (g : Graph) (u x : str) : adj (add_node g u) x = adj g x.
Proof.
  unfold add_node, dict_mem, adj, dict_get.
  destruct (dict_find g u) eqn:E; [reflexivity|].
  rewrite dict_find_app. destruct (dict_find g x); [reflexivity|].
  simpl. now destruct (str_eqb u x).
Qed.

Lemma list_add_in (v y : str) (l : list str) :
  In y (list_add v l) <-> In y l \/ y = v.
Proof.
  unfold list_add. destruct (existsb (str_eqb v) l) eqn:E.
  - split; [auto|]. intros [H | ->]; [assumption|].
    apply existsb_exists in E as (z & Hz & Hvz).
    apply str_eqb_eq in Hvz. now subst.
  - rewrite in_app_iff. simpl. intuition.
Qed.

Lemma adj_upd (g : Graph) (u v x : str) :
  adj (dict_upd g u [] (list_add v)) x =
  if str_eqb u x then list_add v (adj g u) else adj g x.
Proof.
  unfold adj at 1. unfold dict_get at 1. rewrite dict_find_upd.
  now destruct (str_eqb u x).
Qed.

(** The edges of a graph after [add_edge]. *)
Lemma add_edge_adj (g : Graph) (u v x y : str) :
  In y (adj (add_edge g u v) x) <->
  In y (adj g x) \/ (x = u /\ y = v) \/ (x = v /\ y = u).
Proof.
  unfold add_edge. rewrite !adj_upd.
  destruct (str_eqb_spec v x) as [<-|Hvx];
    destruct (str_eqb_spec u v) as [->|Huv];
    rewrite ?list_add_in, ?adj_upd, ?str_eqb_refl, ?list_add_in, ?adj_add_node.
  - intuition.
  - destruct (str_eqb_spec u v); [contradiction|].
    rewrite ?adj_add_node. intuition congruence.
  - destruct (str_eqb_spec v x); [contradiction|].
    rewrite ?adj_add_node. intuition congruence.
  - destruct (str_eqb_spec u x) as [<-|Hux];
      rewrite ?list_add_in, ?adj_add_node; intuition congruence.
Qed.

Lemma dropwhile_head (c : ascii -> bool) (s : str) :
  match s with x :: _ => c x = false | [] => True end ->
  dropwhile c s = s.
Proof. destruct s as [|x s]; simpl; [reflexivity|]. now intros ->. Qed.

Lemma strip_token (a : str) : all_in non_space a -> strip a = a.
Proof.
  intros Ha. unfold strip, lstrip, rstrip.
  rewrite (dropwhile_head is_space a).
  - rewrite dropwhile_head; [apply rev_involutive|].
    destruct (rev a) as [|x t] eqn:E; [exact I|].
    apply non_space_not_space.
    unfold all_in in Ha. rewrite Forall_forall in Ha. apply Ha.
    apply in_rev. rewrite E. now left.
  - destruct Ha as [|x t Hx _]; [exact I | now apply non_space_not_space].
Qed.

(** ** Claims about the parser *)

(** C8 (as stated, refuted). Two blanks on each side of [--] are white space
    around it, yet the line is not recognised. *)
Lemma wide_spacing_not_recognised :
  ~ (forall a b w1 w2 : str,
        a <> [] -> all_in non_space a -> b <> [] -> all_in non_space b ->
        w1 <> [] -> all_in is_space w1 -> w2 <> [] -> all_in is_space w2 ->
        edge_match (a ++ w1 ++ py "--" ++ w2 ++ b ++ py ";") = Some (a, b)).
Proof.
  intros H.
  specialize (H (py "n1") (py "n2") (py "  ") (py "  ")).
  assert (Hn : edge_match (py "n1  --  n2;") = None) by reflexivity.
  simpl app in H. unfold py in H, Hn. simpl list_ascii_of_string in H, Hn.
  rewrite Hn in H.
  assert (Hfalse : @None (str * str) =
                   Some (list_ascii_of_string "n1", list_ascii_of_string "n2"));
    [|discriminate Hfalse].
  apply H; try discriminate; repeat constructor.
Qed.

(** C8 (amended). A line made of optional leading white space, a token, one
    white-space character, [--], one white-space character, a token and [;],
    ending there or at its line feed, is recognised as an edge line with
    those two tokens, and parsing it puts the edge between them into the
    graph. *)
Theorem edge_line_recognised (ws a b tail : str) (s1 s2 : ascii)
    (G : Graph) (base_counts : dict Z) :
  all_in is_space ws ->
  a <> [] -> all_in non_space a ->
  is_space s1 = true -> is_space s2 = true ->
  b <> [] -> all_in non_space b ->
  tail = [] \/ tail = [LF] ->
  let l := ws ++ a ++ s1 :: "-"%char :: "-"%char :: s2 :: b ++
           ";"%char :: tail in
  edge_match l = Some (a, b) /\
  In b (adj (fst (parse_line (G, base_counts) l)) a) /\
  In a (adj (fst (parse_line (G, base_counts) l)) b).
Proof.
  intros Hws Hane Ha Hs1 Hs2 Hbne Hb Htail l.
  assert (Hm : edge_match l = Some (a, b)).
  { apply edge_match_exact; try assumption.
    destruct Htail as [-> | ->]; [exact I | reflexivity]. }
  split; [assumption|].
  unfold parse_line. rewrite Hm. simpl fst.
  rewrite !strip_token by assumption.
  split; apply add_edge_adj; auto.
Qed.

Lemma edge_line_recognised_witness :
  let l := py "  n1 -- n2;" ++ [LF] in
  edge_match l = Some (py "n1", py "n2") /\
  In (py "n2") (adj (fst (parse_line ([], []) l)) (py "n1")) /\
  In (py "n1") (adj (fst (parse_line ([], []) l)) (py "n2")).
Proof.
  apply (edge_line_recognised (py "  ") (py "n1") (py "n2") [LF]
           " "%char " "%char [] []);
    first [ discriminate | reflexivity | now right
          | repeat (constructor; try reflexivity) ].
Defined.

(** ** Sort keys *)

Lemma greedy_cap_total {R} (c : ascii -> bool) (F : str -> str -> R)
    (acc s : str) :
  greedy_cap c (fun g rest => Some (F g rest)) acc s =
  Some (F (acc ++ takewhile c s) (dropwhile c s)).
Proof.
  revert acc. induction s as [|x s IH]; intros acc; simpl.
  - now rewrite app_nil_r.
  - destruct (c x); [|now rewrite app_nil_r].
    now rewrite IH, <- app_assoc.
Qed.

Lemma digits_match (s : str) :
  re_match digits_pattern s =
  match s with
  | x :: _ => if is_digit x then Some [takewhile is_digit s] else None
  | [] => None
  end.
Proof.
  unfold re_match, digits_pattern. destruct s as [|x s]; [reflexivity|].
  cbn [run]. destruct (is_digit x) eqn:E; [|reflexivity].
  rewrite (greedy_cap_total is_digit (fun g rest => ([] ++ [g], rest))).
  simpl. now rewrite E.
Qed.

Lemma digits_search (s : str) :
  re_search digits_pattern s =
  match first_digits s with
  | [] => None
  | d => Some [d]
  end.
Proof.
  unfold first_digits. induction s as [|x s IH].
  - reflexivity.
  - cbn [re_search]. rewrite digits_match. cbn [dropwhile].
    destruct (is_digit x) eqn:E; cbn [negb].
    + simpl. now rewrite E.
    + exact IH.
Qed.

(** The key computed with [re.search] is the number of the first digit
    run. *)
Lemma numeric_endpoint (s : str) : numeric s = endpoint_number s.
Proof.
  unfold numeric, endpoint_number. rewrite digits_search.
  now destruct (first_digits s).
Qed.

Lemma num_ltb_lt (x y : num) : num_ltb x y = true <-> num_lt x y.
Proof.
  destruct x as [a|], y as [b|]; simpl; try (split; congruence || tauto).
  apply Z.ltb_lt.
Qed.

Lemma num_eqb_eq (x y : num) : num_eqb x y = true <-> x = y.
Proof.
  destruct x as [a|], y as [b|]; simpl; try (split; congruence).
  rewrite Z.eqb_eq. split; congruence.
Qed.

Lemma num_lt_total (x y : num) : num_lt x y \/ x = y \/ num_lt y x.
Proof.
  destruct x as [a|], y as [b|]; simpl; auto.
  destruct (Z.lt_trichotomy a b) as [|[->|]]; auto.
Qed.

Lemma num_lt_irrefl (x : num) : ~ num_lt x x.
Proof. destruct x; simpl; [lia | tauto]. Qed.

Lemma num_lt_trans (x y z : num) : num_lt x y -> num_lt y z -> num_lt x z.
Proof. destruct x, y, z; simpl; try tauto; lia. Qed.

(** [not (k2 < k1)] is [k1 <= k2]. *)
Lemma key_ltb_le (k1 k2 : num * num) :
  key_ltb k2 k1 = false <-> key_le k1 k2.
Proof.
  destruct k1 as [a1 b1], k2 as [a2 b2]. unfold key_ltb, key_le, num_le.
  simpl. destruct (num_eqb a2 a1) eqn:E.
  - apply num_eqb_eq in E. subst a2.
    rewrite <- Bool.not_true_iff_false, num_ltb_lt.
    pose proof (num_lt_irrefl a1). pose proof (num_lt_total b1 b2).
    pose proof (num_lt_irrefl b1). pose proof (num_lt_trans b1 b2 b1).
    split; [intros Hn; right; split; [reflexivity|]; intuition|].
    intros [Hlt | [_ [Hlt | ->]]]; intuition.
  - rewrite <- Bool.not_true_iff_false, num_ltb_lt.
    assert (Hne : a2 <> a1).
    { intros ->. rewrite (proj2 (num_eqb_eq a1 a1) eq_refl) in E.
      discriminate. }
    pose proof (num_lt_total a1 a2). pose proof (num_lt_trans a1 a2 a1).
    pose proof (num_lt_irrefl a1).
    split; [intros Hn; left; intuition congruence|].
    intros [Hlt | [Heq _]]; [intuition | congruence].
Qed.

Lemma key_le_total (k1 k2 : num * num) : key_le k1 k2 \/ key_le k2 k1.
Proof.
  destruct k1 as [a1 b1], k2 as [a2 b2]. unfold key_le, num_le. simpl.
  destruct (num_lt_total a1 a2) as [|[->|]]; auto.
  destruct (num_lt_total b1 b2) as [|[->|]]; auto.
Qed.

Lemma key_le_trans (k1 k2 k3 : num * num) :
  key_le k1 k2 -> key_le k2 k3 -> key_le k1 k3.
Proof.
  destruct k1 as [a1 b1], k2 as [a2 b2], k3 as [a3 b3].
  unfold key_le, num_le. simpl.
  intros [H1 | [-> [H1 | ->]]] [H2 | [-> [H2 | ->]]]; auto.
  - left. eapply num_lt_trans; eauto.
  - right. split; [reflexivity|]. left. eapply num_lt_trans; eauto.
Qed.

Section SortFacts.
Context {A : Type} (key : A -> num * num).

Lemma insert_by_perm (x : A) (l : list A) :
  Permutation (insert_by key x l) (x :: l).
Proof.
  induction l as [|y l IH]; simpl; [reflexivity|].
  destruct (key_ltb (key y) (key x)); [|reflexivity].
  rewrite IH. apply perm_swap.
Qed.

Lemma sort_by_perm (l : list A) : Permutation (sort_by key l) l.
Proof.
  induction l as [|x l IH]; simpl; [reflexivity|].
  rewrite insert_by_perm. now constructor.
Qed.

Lemma insert_by_sorted (x : A) (l : list A) :
  Sorted (by_key key) l -> Sorted (by_key key) (insert_by key x l).
Proof.
  induction 1 as [|y l Hs IH Hhd]; simpl.
  - repeat constructor.
  - destruct (key_ltb (key y) (key x)) eqn:E.
    + constructor; [assumption|].
      assert (Hyx : (by_key key) y x).
      { destruct (key_le_total (key y) (key x)) as [|Hxy]; [assumption|].
        apply key_ltb_le in Hxy. congruence. }
      destruct l as [|z l]; simpl.
      * now constructor.
      * destruct (key_ltb (key z) (key x)); constructor; [|assumption].
        now inversion Hhd.
    + constructor; [now constructor|]. constructor. now apply key_ltb_le.
Qed.

Lemma sort_by_sorted (l : list A) : Sorted (by_key key) (sort_by key l).
Proof.
  induction l as [|x l IH]; simpl; [constructor|].
  now apply insert_by_sorted.
Qed.

Lemma sort_by_strongly_sorted (l : list A) :
  StronglySorted (by_key key) (sort_by key l).
Proof.
  apply Sorted_StronglySorted; [|apply sort_by_sorted].
  intros x y z. apply key_le_trans.
Qed.
End SortFacts.

(** ** The scan of the lines *)

Lemma scan_line_inside (st : scan_state) (l : str) :
  inside_graph (scan_line st l) =
  if opens l then true else if closes l then false else inside_graph st.
Proof.
  unfold scan_line, opens, closes.
  destruct (startswith (strip l) (py "graph G {")); [reflexivity|].
  destruct (str_eqb (strip l) (py "}")); [reflexivity|].
  destruct (inside_graph st); [|reflexivity].
  destruct (edge_match l) as [[a b]|]; [|reflexivity].
  now destruct (has_i a || has_i b).
Qed.

Lemma scan_line_filtered (st : scan_state) (l : str) :
  filtered_lines (scan_line st l) =
  filtered_lines st ++
  (if opens l then [l] else if closes l then [l]
   else if inside_graph st && is_edge_line l then [] else [l]).
Proof.
  unfold scan_line, opens, closes, is_edge_line.
  destruct (startswith (strip l) (py "graph G {")); [reflexivity|].
  destruct (str_eqb (strip l) (py "}")); [reflexivity|].
  destruct (inside_graph st); [|reflexivity].
  destruct (edge_match l) as [[a b]|]; [|reflexivity].
  simpl. rewrite app_nil_r. now destruct (has_i a || has_i b).
Qed.

Lemma scan_filtered (ls : list str) (st : scan_state) :
  filtered_lines (fold_left scan_line ls st) =
  filtered_lines st ++ passed_through (inside_graph st) ls.
Proof.
  revert st. induction ls as [|l ls IH]; intros st; simpl.
  - now rewrite app_nil_r.
  - rewrite IH, scan_line_inside, scan_line_filtered, <- app_assoc.
    f_equal. destruct (opens l); [reflexivity|].
    destruct (closes l); [reflexivity|].
    now destruct (inside_graph st && is_edge_line l).
Qed.

Lemma passed_through_closer (inside : bool) (body : list str) (c : str) :
  closes c = true ->
  passed_through inside (body ++ [c]) = passed_through inside body ++ [c].
Proof.
  intros Hc. revert inside. induction body as [|l body IH]; intros inside.
  - simpl. rewrite Hc. now destruct (opens c).
  - simpl. destruct (opens l); [now rewrite IH|].
    destruct (closes l); [now rewrite IH|].
    destruct (inside && is_edge_line l); now rewrite IH.
Qed.

(** A line that is not an edge line passes through. *)
Lemma passed_through_keeps (inside : bool) (ls : list str) (l : str) :
  In l ls -> is_edge_line l = false -> In l (passed_through inside ls).
Proof.
  intros Hin He. revert inside.
  induction ls as [|x ls IH]; intros inside; [destruct Hin|].
  simpl. destruct Hin as [->|Hin].
  - rewrite He, andb_false_r. destruct (opens l); [now left|].
    destruct (closes l); now left.
  - destruct (opens x); [right; auto|].
    destruct (closes x); [right; auto|].
    destruct (inside && is_edge_line x); [auto | right; auto].
Qed.

(** Before the block is opened every line passes through. *)
Lemma passed_through_outside (pre rest : list str) :
  Forall (fun l => opens l = false) pre ->
  passed_through false (pre ++ rest) = pre ++ passed_through false rest.
Proof.
  induction 1 as [|l pre Hl _ IH]; simpl; [reflexivity|].
  rewrite Hl, IH. now destruct (closes l).
Qed.

(** Nothing is added and the order is kept: the lines that pass through are
    the lines selected by some choice of positions. *)
Lemma passed_through_selects (inside : bool) (ls : list str) :
  exists mask : list bool,
    length mask = length ls /\
    passed_through inside ls =
    map fst (filter snd (combine ls mask)).
Proof.
  revert inside. induction ls as [|l ls IH]; intros inside.
  - exists []. split; reflexivity.
  - simpl.
    destruct (IH true) as (m1 & Hl1 & H1).
    destruct (IH false) as (m2 & Hl2 & H2).
    destruct (IH inside) as (m3 & Hl3 & H3).
    destruct (opens l).
    { exists (true :: m1). simpl. split; [lia | now rewrite H1]. }
    destruct (closes l).
    { exists (true :: m2). simpl. split; [lia | now rewrite H2]. }
    destruct (inside && is_edge_line l).
    + exists (false :: m3). simpl. split; [lia | now rewrite H3].
    + exists (true :: m3). simpl. split; [lia | now rewrite H3].
Qed.

(** ** The deduplicated, sorted edge list *)

Section EdgeListFacts.
Context {SO : SetOrder}.

Lemma sorted_edges_perm (text : str) :
  Permutation (sorted_edges text) (set_to_list (all_edges text)).
Proof. apply sort_by_perm. Qed.

Lemma sorted_edges_in (text : str) (e : edge) :
  In e (sorted_edges text) <-> In e (all_edges text).
Proof.
  split; intros H.
  - apply set_in. eapply Permutation_in; [apply sorted_edges_perm | exact H].
  - eapply Permutation_in; [symmetry; apply sorted_edges_perm|].
    now apply set_in.
Qed.

Lemma sorted_edges_nodup (text : str) : NoDup (sorted_edges text).
Proof.
  eapply Permutation_NoDup; [symmetry; apply sorted_edges_perm|].
  apply set_nodup.
Qed.

Lemma sorted_edges_once (text : str) (e : edge) :
  In e (all_edges text) ->
  count_occ edge_eq_dec (sorted_edges text) e = 1.
Proof.
  intros Hin. apply NoDup_count_occ'; [apply sorted_edges_nodup|].
  now apply sorted_edges_in.
Qed.

Lemma sorted_edges_sorted (text : str) :
  StronglySorted edge_le (sorted_edges text).
Proof.
  pose proof (sort_by_strongly_sorted sort_key
                (set_to_list (all_edges text))) as H.
  unfold sorted_edges.
  assert (Himp : forall e1 e2, by_key sort_key e1 e2 -> edge_le e1 e2).
  { intros e1 e2. unfold by_key, sort_key, edge_le.
    now rewrite !numeric_endpoint. }
  induction H as [|e l Hs IH Hall]; constructor; [assumption|].
  eapply Forall_impl; [|exact Hall]. intros e2. apply Himp.
Qed.
End EdgeListFacts.

(** ** Claims about the loop collapser *)

Lemma between_count (A B : str) (l : list edge) :
  A <> B ->
  between A B l =
  count_occ edge_eq_dec l (A, B) + count_occ edge_eq_dec l (B, A).
Proof.
  intros Hne. unfold between. induction l as [|e l IH]; [reflexivity|].
  simpl. destruct (edge_eq_dec e (A, B)) as [->|H1].
  - destruct (edge_eq_dec (A, B) (B, A)) as [Heq|_]; [congruence|].
    simpl. now rewrite IH.
  - destruct (edge_eq_dec e (B, A)) as [->|H2]; simpl; rewrite IH; lia.
Qed.

Example loop_text_collapsed :
  filter_internal_loops loop_text =
  line "graph G {" ++ line "  node [shape=box];" ++
  line "    n1 -- n2;" ++ [LF] ++ line "    n2 -- n4;" ++ [LF] ++
  line "    n3 -- n1;" ++ [LF] ++ line "    n3 -- n2;" ++ [LF] ++ py "}".
Proof. reflexivity. Qed.

(** C6. The edges appended by the replacement loop are, for each recorded
    intermediate in turn, the pairs [(N[i], N[j])], [i < j], of its neighbour
    list [N]: one pair for each of the [|N| (|N| - 1) / 2] index pairs, each
    neighbour paired with every later one, whatever the length of the list;
    a list of no or one neighbour gives no pair. *)
Theorem clique_expansion (text : str) (N : list str) :
  all_edges text =
    edge_lines (scan text) ++
    flat_map (fun kv => clique (snd kv)) (node_connections (scan text)) /\
  (forall a b,
      In (a, b) (clique N) <->
      exists i j, i < j /\ nth_error N i = Some a /\ nth_error N j = Some b) /\
  2 * length (clique N) = length N * (length N - 1) /\
  (forall x t, clique (x :: t) = map (pair x) t ++ clique t) /\
  clique [] = [] /\
  (forall x, clique [x] = []).
Proof.
  split; [reflexivity|]. split; [apply clique_in|].
  split; [apply clique_length|]. split; [apply clique_cons|].
  split; reflexivity.
Qed.

(** C7. The deduplicated edge list that is formatted into the output is
    sorted by the pair of its endpoints' numbers, the first endpoint's number
    deciding before the second's; the number of an endpoint is the value of
    its first run of decimal digits, and infinity, which is above every
    number, when it has no digit. *)
Theorem edges_sorted_by_number {SO : SetOrder} (text : str) :
  filter_internal_loops text =
    join [LF] (removelast (filtered_lines (scan text)) ++
               map format_edge (sorted_edges text) ++ [py "}"]) /\
  NoDup (sorted_edges text) /\
  (forall e, In e (sorted_edges text) <-> In e (all_edges text)) /\
  StronglySorted edge_le (sorted_edges text) /\
  (forall e, sort_key e = (endpoint_number (fst e), endpoint_number (snd e))) /\
  (forall s, endpoint_number s =
             if existsb is_digit s then Fin (int_of_digits (first_digits s))
             else Inf) /\
  (forall x, num_le x Inf).
Proof.
  split; [reflexivity|]. split; [apply sorted_edges_nodup|].
  split; [apply sorted_edges_in|]. split; [apply sorted_edges_sorted|].
  split; [|split].
  - intros e. unfold sort_key. now rewrite !numeric_endpoint.
  - intros s. unfold endpoint_number, first_digits.
    induction s as [|x s IH]; [reflexivity|].
    simpl. destruct (is_digit x) eqn:E; simpl.
    + now rewrite E.
    + exact IH.
  - intros [n|]; [left; exact I | now right].
Qed.

Example endpoint_number_n12 : endpoint_number (py "n12x7") = Fin 12.
Proof. reflexivity. Qed.

(** C9 (as stated, refuted). A line after the closing brace is neither an edge
    line nor a closing brace, and it is not in the output. *)
Lemma trailing_line_lost :
  ~ (forall (text l : str),
        In l (surviving_lines text) ->
        is_edge_line l = false -> closes l = false ->
        In l (splitlines (filter_internal_loops text))).
Proof.
  intros H. specialize (H trailer_text (py "trailer")).
  assert (Hout : splitlines (filter_internal_loops trailer_text) =
                 [py "graph G {"; py "}"; py "}"]) by reflexivity.
  rewrite Hout in H.
  assert (Hin : In (py "trailer") [py "graph G {"; py "}"; py "}"]).
  { apply H; [right; right; now left | reflexivity | reflexivity]. }
  destruct Hin as [Hin|[Hin|[Hin|[]]]]; discriminate Hin.
Qed.

(** C9 (amended). When the last line left after the removal of the loop-node
    declarations is a closing-brace line, the output is: the lines before it
    that pass through, verbatim and in their order; then, for each edge of
    the sorted list, the line [    A -- B;] and a line feed of its own; then
    [}]. The lines that pass through are lines of the input, selected in
    place; every line that is not an edge line is among them, and so is
    every line in front of the first opening line. *)
Theorem output_layout {SO : SetOrder} (text : str) (body : list str)
    (closing : str) :
  surviving_lines text = body ++ [closing] ->
  closes closing = true ->
  filter_internal_loops text =
    join [LF] (passed_through false body ++
               map format_edge (sorted_edges text) ++ [py "}"]) /\
  (forall e, format_edge e =
             py "    " ++ fst e ++ py " -- " ++ snd e ++ py ";" ++ [LF]) /\
  (exists mask : list bool,
      length mask = length body /\
      passed_through false body = map fst (filter snd (combine body mask))) /\
  (forall l, In l body -> is_edge_line l = false ->
             In l (passed_through false body)) /\
  (forall pre rest, body = pre ++ rest ->
                    Forall (fun l => opens l = false) pre ->
                    passed_through false body =
                    pre ++ passed_through false rest).
Proof.
  intros Hlines Hc. split; [|split; [reflexivity|split; [|split]]].
  - unfold filter_internal_loops, scan. rewrite scan_filtered, Hlines.
    simpl. rewrite passed_through_closer by assumption.
    now rewrite removelast_last.
  - apply passed_through_selects.
  - intros l. apply passed_through_keeps.
  - intros pre rest ->. apply passed_through_outside.
Qed.

Lemma output_layout_witness :
  filter_internal_loops loop_text =
    join [LF] (passed_through false
                 [py "graph G {"; py "  node [shape=box];";
                  py "    i1 -- n3;"; py "    i1 -- n1;";
                  py "    n2 -- n4;"; py "    i1 -- n2;"] ++
               map format_edge (sorted_edges loop_text) ++ [py "}"]).
Proof.
  apply (output_layout loop_text _ (py "}")); reflexivity.
Defined.

(** ** Tokens recorded by the scan *)

Lemma edge_match_tokens (l a b : str) :
  edge_match l = Some (a, b) -> token a /\ token b.
Proof.
  intros H. apply edge_match_shape in H as (rest & ws & s1 & s2 & H).
  unfold token. tauto.
Qed.

Lemma dict_upd_values {V} (P : V -> Prop) (d : dict V) (k : str) (init : V)
    (f : V -> V) :
  Forall (fun kv => P (snd kv)) d -> P (f init) ->
  (forall v, P v -> P (f v)) ->
  Forall (fun kv => P (snd kv)) (dict_upd d k init f).
Proof.
  intros Hd Hinit Hf. induction Hd as [|[k0 v0] d Hv Hd IH]; simpl.
  - now repeat constructor.
  - simpl in Hv. destruct (str_eqb k0 k); constructor; simpl; auto.
Qed.

Lemma setdefault_append_tokens (d : dict (list str)) (k v : str) :
  Forall (fun kv => Forall token (snd kv)) d -> token v ->
  Forall (fun kv => Forall token (snd kv)) (setdefault_append d k v).
Proof.
  intros Hd Hv. unfold setdefault_append.
  apply (dict_upd_values (Forall token)); [assumption | |].
  - simpl. constructor; [assumption | constructor].
  - intros l Hl. apply Forall_app. split; [assumption | now constructor].
Qed.

Lemma scan_line_tokens (st : scan_state) (l : str) :
  scan_tokens st -> scan_tokens (scan_line st l).
Proof.
  intros [He Hc]. unfold scan_line, keep_line.
  destruct (startswith (strip l) (py "graph G {")); [now split|].
  destruct (if str_eqb (strip l) (py "}") then false else inside_graph st);
    [|now split].
  destruct (edge_match l) as [[a b]|] eqn:E; [|now split].
  destruct (edge_match_tokens _ _ _ E) as [Ha Hb].
  destruct (has_i a || has_i b); split; simpl; try assumption.
  - destruct (has_i a); [now apply setdefault_append_tokens|].
    destruct (has_i b); [now apply setdefault_append_tokens | assumption].
  - apply Forall_app. split; [assumption|]. constructor; [|constructor].
    now split.
Qed.

Lemma scan_fold_tokens (ls : list str) (st : scan_state) :
  scan_tokens st -> scan_tokens (fold_left scan_line ls st).
Proof.
  revert st. induction ls as [|l ls IH]; intros st H; simpl; [assumption|].
  apply IH. now apply scan_line_tokens.
Qed.

Lemma clique_tokens (N : list str) :
  Forall token N -> Forall edge_tokens (clique N).
Proof.
  intros HN. apply Forall_forall. intros [a b] Hin.
  apply clique_in in Hin as (i & j & _ & Hi & Hj).
  rewrite Forall_forall in HN.
  split; apply HN; eapply nth_error_In; eauto.
Qed.

Lemma all_edges_tokens (text : str) : Forall edge_tokens (all_edges text).
Proof.
  unfold all_edges, scan.
  destruct (scan_fold_tokens (surviving_lines text) scan_init) as [He Hc].
  { split; constructor. }
  apply Forall_app. split; [assumption|].
  unfold expansion. apply Forall_forall. intros e Hin.
  apply in_flat_map in Hin as (kv & Hkv & Hin).
  rewrite Forall_forall in Hc. specialize (Hc kv Hkv).
  apply clique_tokens in Hc. rewrite Forall_forall in Hc. now apply Hc.
Qed.

(** ** Lines and line ends *)

Lemma linebreak_LF_CR (x : ascii) :
  is_linebreak x = false -> x <> LF /\ x <> CR.
Proof. intros H. split; intros ->; discriminate H. Qed.

Lemma splitlines_from_one_line (s cur : str) :
  one_line cur -> Forall one_line (splitlines_from cur s).
Proof.
  remember (length s) as n eqn:Hn. revert s cur Hn.
  induction n as [n IH] using lt_wf_ind. intros s cur Hn Hcur.
  assert (Hnil : one_line []) by constructor.
  destruct s as [|c s]; simpl.
  - destruct cur; [constructor|]. constructor; [assumption | constructor].
  - simpl in Hn. destruct (Ascii.eqb c CR).
    + destruct s as [|c' s'].
      * constructor; [assumption | constructor].
      * simpl in Hn.
        destruct (Ascii.eqb c' LF); (constructor; [assumption|]).
        -- apply (IH (length s')); [lia | reflexivity | assumption].
        -- apply (IH (length (c' :: s'))); [simpl; lia | reflexivity |].
           assumption.
    + destruct (is_linebreak c) eqn:E.
      * constructor; [assumption|].
        apply (IH (length s)); [lia | reflexivity | assumption].
      * apply (IH (length s)); [lia | reflexivity |].
        apply Forall_app. split; [assumption|]. now repeat constructor.
Qed.

Lemma readlines_from_line (l cur rest : str) :
  one_line l ->
  readlines_from cur (l ++ LF :: rest) =
  (cur ++ l ++ [LF]) :: readlines_from [] rest.
Proof.
  intros Hl. revert cur. induction Hl as [|x l Hx _ IH]; intros cur.
  - reflexivity.
  - apply linebreak_LF_CR in Hx as [HLF HCR]. simpl.
    destruct (Ascii.eqb_spec x CR); [contradiction|].
    destruct (Ascii.eqb_spec x LF); [contradiction|].
    rewrite IH, <- app_assoc. reflexivity.
Qed.

Lemma readlines_from_last (l cur : str) :
  one_line l -> cur ++ l <> [] -> readlines_from cur l = [cur ++ l].
Proof.
  intros Hl. revert cur. induction Hl as [|x l Hx _ IH]; intros cur Hne.
  - rewrite app_nil_r in *. simpl. destruct cur; [congruence | reflexivity].
  - apply linebreak_LF_CR in Hx as [HLF HCR]. simpl.
    destruct (Ascii.eqb_spec x CR); [contradiction|].
    destruct (Ascii.eqb_spec x LF); [contradiction|].
    rewrite IH, <- app_assoc; [reflexivity|].
    rewrite <- app_assoc. simpl. now destruct cur.
Qed.

(** Reading back lines written with a line feed after each, and a last line
    without one. *)
Lemma readlines_lines (Ls : list str) (tl : str) :
  Forall one_line Ls -> one_line tl -> tl <> [] ->
  readlines (concat (map with_LF Ls) ++ tl) = map with_LF Ls ++ [tl].
Proof.
  intros HLs Htl Hne. unfold readlines.
  induction HLs as [|l Ls Hl _ IH]; simpl.
  - now apply (readlines_from_last tl []).
  - unfold with_LF at 1. rewrite <- !app_assoc. simpl.
    rewrite readlines_from_line by assumption. simpl. now rewrite IH.
Qed.

Lemma join_snoc (sep : str) (ls : list str) (x : str) :
  join sep (ls ++ [x]) = concat (map (fun l => l ++ sep) ls) ++ x.
Proof.
  induction ls as [|l ls IH]; [reflexivity|].
  simpl app. cbn [join]. destruct (ls ++ [x]) as [|y t] eqn:E.
  - now destruct ls.
  - rewrite IH. simpl. now rewrite <- !app_assoc.
Qed.

Lemma format_edge_text (e : edge) : format_edge e = with_LF (edge_text e).
Proof.
  unfold format_edge, edge_text, with_LF. now rewrite <- !app_assoc.
Qed.

Lemma formatted_lines (E : list edge) :
  concat (map with_LF (map format_edge E)) =
  concat (map with_LF (flat_map (fun e => [edge_text e; []]) E)).
Proof.
  induction E as [|e E IH]; [reflexivity|].
  cbn [map flat_map]. rewrite map_app, concat_app. cbn [map concat].
  rewrite IH, format_edge_text. unfold with_LF.
  now rewrite <- !app_assoc.
Qed.

Lemma linebreak_is_space (x : ascii) :
  is_linebreak x = true -> is_space x = true.
Proof.
  destruct x as [b0 b1 b2 b3 b4 b5 b6 b7].
  destruct b0, b1, b2, b3, b4, b5, b6, b7; intros H;
    first [reflexivity | discriminate H].
Qed.

Lemma token_one_line (t : str) : all_in non_space t -> one_line t.
Proof.
  intros H. eapply Forall_impl; [|exact H]. intros x Hx.
  apply non_space_not_space in Hx.
  destruct (is_linebreak x) eqn:E; [|reflexivity].
  apply linebreak_is_space in E. congruence.
Qed.

Lemma edge_text_one_line (e : edge) : edge_tokens e -> one_line (edge_text e).
Proof.
  intros [[_ Ha] [_ Hb]]. unfold edge_text.
  repeat (apply Forall_app; split);
    try (now apply token_one_line); repeat constructor.
Qed.

(** The output of the collapser, read back line by line. *)
Lemma output_lines {SO : SetOrder} (text : str) :
  Forall one_line (removelast (filtered_lines (scan text))) ->
  readlines (filter_internal_loops text) =
  map with_LF (removelast (filtered_lines (scan text)) ++
               flat_map (fun e => [edge_text e; []]) (sorted_edges text))
  ++ [py "}"].
Proof.
  intros HK. unfold filter_internal_loops.
  rewrite app_assoc, join_snoc.
  change (fun l : str => l ++ [LF]) with with_LF.
  rewrite map_app, concat_app, formatted_lines, <- concat_app, <- map_app.
  apply readlines_lines; [|repeat constructor | discriminate].
  apply Forall_app. split; [assumption|].
  apply Forall_forall. intros l Hin.
  apply in_flat_map in Hin as (e & He & [<-|[<-|[]]]); [|constructor].
  apply edge_text_one_line.
  pose proof (all_edges_tokens text) as Ht. rewrite Forall_forall in Ht.
  apply Ht. now apply sorted_edges_in.
Qed.

(** ** The edges of a parsed graph *)

Lemma parse_line_adj (st : Graph * dict Z) (l x y : str) :
  In y (adj (fst (parse_line st l)) x) <->
  In y (adj (fst st) x) \/
  exists a b, edge_match l = Some (a, b) /\
              ((x = strip a /\ y = strip b) \/ (x = strip b /\ y = strip a)).
Proof.
  unfold parse_line. simpl fst. destruct (edge_match l) as [[a b]|].
  - rewrite add_edge_adj. split.
    + intros [H | H]; [now left | right]. now exists a, b.
    + intros [H | (a' & b' & Heq & H)]; [now left | right].
      now inversion Heq; subst.
  - split; [now left|]. intros [H | (a & b & Heq & _)];
      [assumption | discriminate].
Qed.

(** The graph has exactly the edges it started with and those of the edge
    lines read. *)
Lemma parse_lines_adj (ls : list str) (st : Graph * dict Z) (x y : str) :
  In y (adj (fst (fold_left parse_line ls st)) x) <->
  In y (adj (fst st) x) \/
  exists l a b, In l ls /\ edge_match l = Some (a, b) /\
                ((x = strip a /\ y = strip b) \/ (x = strip b /\ y = strip a)).
Proof.
  revert st. induction ls as [|l ls IH]; intros st; simpl.
  - split; [now left|]. intros [H | (l & a & b & [] & _)]. assumption.
  - rewrite IH, parse_line_adj. split.
    + intros [[H | (a & b & Hm & H)] | (l' & a & b & Hin & Hm & H)].
      * now left.
      * right. exists l, a, b. auto.
      * right. exists l', a, b. auto.
    + intros [H | (l' & a & b & [<- | Hin] & Hm & H)].
      * left. now left.
      * left. right. now exists a, b.
      * right. now exists l', a, b.
Qed.

Lemma edge_shape_cut (l a b rest : str) (z : ascii) :
  edge_shape (l ++ [z]) a b rest -> z <> ";"%char ->
  exists rest', rest = rest' ++ [z] /\ edge_shape l a b rest'.
Proof.
  intros (ws & s1 & s2 & Heq & H) Hz.
  destruct (exists_last (l:=";"%char :: rest)) as (pre & z' & Hlast);
    [discriminate|].
  assert (Hsplit : l ++ [z] =
            (ws ++ a ++ s1 :: "-"%char :: "-"%char :: s2 :: b ++ pre) ++ [z']).
  { rewrite Heq, Hlast. repeat (rewrite <- ?app_assoc; simpl).
    reflexivity. }
  apply app_inj_tail in Hsplit as [Hl Hzz]. subst z'.
  destruct pre as [|p pre]; simpl in Hlast.
  - inversion Hlast; subst. congruence.
  - inversion Hlast; subst p rest. exists pre. split; [reflexivity|].
    exists ws, s1, s2. split; [|exact H].
    rewrite Hl. repeat (rewrite <- ?app_assoc; simpl). reflexivity.
Qed.

(** The line feed kept by [readlines] does not turn a line into an edge
    line. *)
Lemma edge_match_line_feed (l : str) :
  edge_match l = None -> edge_match (with_LF l) = None.
Proof.
  intros Hn. destruct (edge_match (with_LF l)) as [[a b]|] eqn:E;
    [|reflexivity].
  apply edge_match_shape in E as (rest & Hs).
  apply edge_shape_cut in Hs as (rest' & _ & Hs'); [|discriminate].
  now apply edge_shape_match in Hs'.
Qed.

Lemma edge_text_match (e : edge) :
  edge_tokens e -> edge_match (with_LF (edge_text e)) = Some e.
Proof.
  destruct e as [a b]. intros [[Hane Ha] [Hbne Hb]].
  unfold with_LF, edge_text. rewrite <- !app_assoc.
  apply (edge_match_exact (py "    ") a b [LF] " "%char " "%char);
    try assumption; try reflexivity.
  repeat constructor.
Qed.

Lemma passed_through_in (inside : bool) (ls : list str) (l : str) :
  In l (passed_through inside ls) -> In l ls.
Proof.
  revert inside. induction ls as [|x ls IH]; intros inside; simpl; [tauto|].
  destruct (opens x); [intros [H|H]; eauto|].
  destruct (closes x); [intros [H|H]; eauto|].
  destruct (inside && is_edge_line x); [eauto | intros [H|H]; eauto].
Qed.

Lemma removelast_in {A} (l : list A) (x : A) : In x (removelast l) -> In x l.
Proof.
  destruct l as [|y t]; [tauto|]. intros H.
  rewrite (app_removelast_last y (l:=y :: t)) by discriminate.
  apply in_or_app. now left.
Qed.

Lemma kept_lines_one_line (text : str) :
  Forall one_line (removelast (filtered_lines (scan text))).
Proof.
  apply Forall_forall. intros l Hin. apply removelast_in in Hin.
  unfold scan in Hin. rewrite scan_filtered in Hin. simpl in Hin.
  apply passed_through_in in Hin. unfold surviving_lines in Hin.
  apply filter_In in Hin as [Hin _].
  pose proof (splitlines_from_one_line text [] (Forall_nil _)) as H.
  rewrite Forall_forall in H. now apply H.
Qed.

(** C3 (as stated, refuted). An edge line in front of the graph block is not
    among the kept or generated edges, yet it is in the output and is parsed
    from it. *)
Lemma outside_edge_reintroduced :
  ~ (forall (text a b : str),
        In b (adj (fst (parse_graph_with_bases (filter_internal_loops text)))
                  a) <->
        In (a, b) (all_edges text) \/ In (b, a) (all_edges text)).
Proof.
  intros H. specialize (H outside_text (py "n1") (py "n2")).
  assert (Hparsed :
            In (py "n2")
               (adj (fst (parse_graph_with_bases
                            (filter_internal_loops outside_text)))
                    (py "n1"))) by (now left).
  apply H in Hparsed. destruct Hparsed as [[]|[]].
Qed.

(** C3 (amended). When no line that the collapser passes through to its
    output is an edge line, the graph parsed from the output has an edge
    between [a] and [b] exactly when [(a, b)] or [(b, a)] is one of the kept
    direct edges or one of the edges generated from the recorded neighbour
    lists. *)
Theorem collapse_then_parse {SO : SetOrder} (text : str) :
  Forall (fun l => is_edge_line l = false)
         (removelast (filtered_lines (scan text))) ->
  forall a b,
    In b (adj (fst (parse_graph_with_bases (filter_internal_loops text))) a)
    <->
    In (a, b) (all_edges text) \/ In (b, a) (all_edges text).
Proof.
  intros Hkept a b. unfold parse_graph_with_bases.
  rewrite (output_lines text (kept_lines_one_line text)), parse_lines_adj.
  pose proof (all_edges_tokens text) as Htok. rewrite Forall_forall in Htok.
  rewrite Forall_forall in Hkept.
  split.
  - intros [[] | (l & x & y & Hin & Hm & Hxy)].
    apply in_app_or in Hin as [Hin | [<- | []]]; [|discriminate Hm].
    apply in_map_iff in Hin as (l0 & <- & Hin).
    apply in_app_or in Hin as [Hin | Hin].
    + specialize (Hkept l0 Hin). unfold is_edge_line in Hkept.
      destruct (edge_match l0) eqn:E; [discriminate|].
      apply edge_match_line_feed in E. congruence.
    + apply in_flat_map in Hin as (e & He & [<- | [<- | []]]);
        [|discriminate Hm].
      apply sorted_edges_in in He. pose proof (Htok e He) as Hte.
      rewrite (edge_text_match e Hte) in Hm. inversion Hm; subst e.
      destruct Hte as [[_ Hx] [_ Hy]]. simpl in Hx, Hy.
      rewrite !strip_token in Hxy by assumption.
      destruct Hxy as [[-> ->] | [-> ->]]; auto.
  - intros Hin. right.
    assert (Hline : forall e, In e (all_edges text) ->
              In (with_LF (edge_text e))
                 (map with_LF
                    (removelast (filtered_lines (scan text)) ++
                     flat_map (fun e => [edge_text e; []])
                              (sorted_edges text)) ++ [py "}"])).
    { intros e He. apply in_or_app. left. apply in_map.
      apply in_or_app. right. apply in_flat_map. exists e.
      split; [now apply sorted_edges_in | now left]. }
    destruct Hin as [Hin | Hin].
    + exists (with_LF (edge_text (a, b))), a, b.
      destruct (Htok _ Hin) as [[_ Ha] [_ Hb]]. simpl in Ha, Hb.
      split; [now apply Hline|].
      split; [now apply edge_text_match, Htok|].
      left. now rewrite !strip_token.
    + exists (with_LF (edge_text (b, a))), b, a.
      destruct (Htok _ Hin) as [[_ Hb] [_ Ha]]. simpl in Ha, Hb.
      split; [now apply Hline|].
      split; [now apply edge_text_match, Htok|].
      right. now rewrite !strip_token.
Qed.

Lemma collapse_then_parse_witness :
  In (py "n2")
     (adj (fst (parse_graph_with_bases (filter_internal_loops loop_text)))
          (py "n1"))
  <->
  In (py "n1", py "n2") (all_edges loop_text) \/
  In (py "n2", py "n1") (all_edges loop_text).
Proof.
  apply (collapse_then_parse loop_text).
  repeat constructor.
Defined.

(** * Further properties of the code *)

(** ** The graph built by the parser *)

Lemma str_eqb_sym (s t : str) : str_eqb s t = str_eqb t s.
Proof.
  destruct (str_eqb_spec s t) as [->|Hne].
  - now rewrite str_eqb_refl.
  - symmetry. apply str_eqb_neq. congruence.
Qed.

Lemma dict_mem_keys {V} (d : dict V) (k : str) :
  dict_mem d k = existsb (str_eqb k) (map fst d).
Proof.
  unfold dict_mem. induction d as [|[k0 v0] d IH]; simpl; [reflexivity|].
  rewrite (str_eqb_sym k k0). destruct (str_eqb k0 k); [reflexivity|].
  exact IH.
Qed.

Lemma keys_upd {V} (d : dict V) (k : str) (init : V) (f : V -> V) :
  map fst (dict_upd d k init f) = add_new (map fst d) k.
Proof.
  unfold add_new. induction d as [|[k0 v0] d IH]; simpl; [reflexivity|].
  rewrite (str_eqb_sym k k0). destruct (str_eqb k0 k); simpl; [reflexivity|].
  rewrite IH. now destruct (existsb (str_eqb k) (map fst d)).
Qed.

Lemma add_new_in (acc : list str) (x y : str) :
  In y (add_new acc x) <-> In y acc \/ y = x.
Proof.
  unfold add_new. destruct (existsb (str_eqb x) acc) eqn:E.
  - split; [auto|]. intros [H | ->]; [assumption|].
    apply existsb_exists in E as (z & Hz & Hxz).
    apply str_eqb_eq in Hxz. now subst.
  - rewrite in_app_iff. simpl. intuition.
Qed.

Lemma add_new_same (acc : list str) (x : str) :
  In x acc -> add_new acc x = acc.
Proof.
  intros Hin. unfold add_new.
  replace (existsb (str_eqb x) acc) with true; [reflexivity|].
  symmetry. apply existsb_exists. exists x. split; [assumption|].
  apply str_eqb_refl.
Qed.

Lemma add_new_nodup (acc : list str) (x : str) :
  NoDup acc -> NoDup (add_new acc x).
Proof.
  intros Hnd. unfold add_new. destruct (existsb (str_eqb x) acc) eqn:E;
    [assumption|].
  apply NoDup_app; [assumption | repeat constructor; tauto |].
  intros y Hy [Heq|[]]. subst y.
  assert (Ht : existsb (str_eqb x) acc = true); [|congruence].
  apply existsb_exists. exists x. split; [assumption | apply str_eqb_refl].
Qed.

Lemma nodes_add_node (g : Graph) (u : str) :
  nodes (add_node g u) = add_new (nodes g) u.
Proof.
  unfold add_node, add_new, nodes. rewrite dict_mem_keys.
  destruct (existsb (str_eqb u) (map fst g)); [reflexivity|].
  now rewrite map_app.
Qed.

Lemma nodes_add_edge (g : Graph) (u v : str) :
  nodes (add_edge g u v) = add_new (add_new (nodes g) u) v.
Proof.
  unfold add_edge, nodes. rewrite !keys_upd.
  change (map fst (add_node (add_node g u) v))
    with (nodes (add_node (add_node g u) v)).
  rewrite !nodes_add_node.
  assert (Hu : In u (add_new (add_new (nodes g) u) v)).
  { apply add_new_in. left. apply add_new_in. now right. }
  rewrite (add_new_same _ u Hu). apply add_new_same.
  apply add_new_in. now right.
Qed.

Lemma fold_add_new_in (l acc : list str) (y : str) :
  In y (fold_left add_new l acc) <-> In y acc \/ In y l.
Proof.
  revert acc. induction l as [|x l IH]; intros acc; simpl; [tauto|].
  rewrite IH, add_new_in. intuition.
Qed.

Lemma fold_add_new_nodup (l acc : list str) :
  NoDup acc -> NoDup (fold_left add_new l acc).
Proof.
  revert acc. induction l as [|x l IH]; intros acc H; simpl; [assumption|].
  apply IH. now apply add_new_nodup.
Qed.

Lemma parse_line_graph (st : Graph * dict Z) (l : str) :
  fst (parse_line st l) =
  match edge_match l with
  | Some (a, b) => add_edge (fst st) a b
  | None => fst st
  end.
Proof.
  unfold parse_line. simpl. destruct (edge_match l) as [[a b]|] eqn:E;
    [|reflexivity].
  destruct (edge_match_tokens _ _ _ E) as [[_ Ha] [_ Hb]].
  now rewrite !strip_token.
Qed.

Lemma parse_lines_nodes (ls : list str) (st : Graph * dict Z) :
  nodes (fst (fold_left parse_line ls st)) =
  fold_left add_new (flat_map endpoints ls) (nodes (fst st)).
Proof.
  revert st. induction ls as [|l ls IH]; intros st; simpl; [reflexivity|].
  rewrite IH, fold_left_app, parse_line_graph. unfold endpoints.
  destruct (edge_match l) as [[a b]|]; [|reflexivity].
  simpl. now rewrite nodes_add_edge.
Qed.

Lemma parse_lines_edges (ls : list str) (st : Graph * dict Z) (x y : str) :
  In y (adj (fst (fold_left parse_line ls st)) x) <->
  In y (adj (fst st) x) \/
  exists l a b, In l ls /\ edge_match l = Some (a, b) /\
                ((x = a /\ y = b) \/ (x = b /\ y = a)).
Proof.
  rewrite parse_lines_adj. split; (intros [H | (l & a & b & Hin & Hm & H)];
    [now left | right; exists l, a, b]);
    destruct (edge_match_tokens _ _ _ Hm) as [[_ Ha] [_ Hb]];
    rewrite ?strip_token in * by assumption; auto.
Qed.

Lemma adj_values_nodup_upd (g : Graph) (u v : str) :
  Forall (fun kv => NoDup (snd kv)) g ->
  Forall (fun kv => NoDup (snd kv)) (dict_upd g u [] (list_add v)).
Proof.
  assert (Hadd : forall l, NoDup l -> NoDup (list_add v l)).
  { intros l Hl. apply (add_new_nodup l v Hl). }
  intros H. apply (dict_upd_values (fun l => NoDup l)); auto.
  apply Hadd. constructor.
Qed.

Lemma adj_values_nodup_edge (g : Graph) (u v : str) :
  Forall (fun kv => NoDup (snd kv)) g ->
  Forall (fun kv => NoDup (snd kv)) (add_edge g u v).
Proof.
  intros H. unfold add_edge. do 2 apply adj_values_nodup_upd.
  assert (Hn : forall g0 w, Forall (fun kv => NoDup (snd kv)) g0 ->
                            Forall (fun kv => NoDup (snd kv)) (add_node g0 w)).
  { intros g0 w H0. unfold add_node. destruct (dict_mem g0 w); [assumption|].
    apply Forall_app. split; [assumption|]. repeat constructor. }
  now do 2 apply Hn.
Qed.

Lemma adj_nodup (g : Graph) (x : str) :
  Forall (fun kv => NoDup (snd kv)) g -> NoDup (adj g x).
Proof.
  intros H. unfold adj, dict_get.
  induction H as [|[k v] g Hv _ IH]; simpl; [constructor|].
  destruct (str_eqb k x); [exact Hv | exact IH].
Qed.

Lemma parse_lines_values_nodup (ls : list str) (st : Graph * dict Z) :
  Forall (fun kv => NoDup (snd kv)) (fst st) ->
  Forall (fun kv => NoDup (snd kv)) (fst (fold_left parse_line ls st)).
Proof.
  revert st. induction ls as [|l ls IH]; intros st H; simpl; [assumption|].
  apply IH. rewrite parse_line_graph.
  destruct (edge_match l) as [[a b]|]; [|assumption].
  now apply adj_values_nodup_edge.
Qed.

(** X1. The parsed graph has an edge from [x] to [y] exactly when some line
    of the file is an edge line whose two tokens are [x] and [y], in either
    order. *)
Theorem parsed_edges (contents x y : str) :
  In y (adj (fst (parse_graph_with_bases contents)) x) <->
  exists l a b,
    In l (readlines contents) /\ edge_match l = Some (a, b) /\
    ((x = a /\ y = b) \/ (x = b /\ y = a)).
Proof.
  unfold parse_graph_with_bases. rewrite parse_lines_edges. simpl.
  split; [intros [[]|H]; exact H | now right].
Qed.

(** X2. The parsed graph is well formed: adjacency is symmetric, no node is
    listed twice, among the nodes or among the neighbours of a node, every
    neighbour of a node is a node, and every node has a neighbour (a node
    that is only declared, without an edge line, is not in the graph). *)
Theorem parsed_graph_well_formed (contents : str) :
  let G := fst (parse_graph_with_bases contents) in
  (forall x y, In y (adj G x) <-> In x (adj G y)) /\
  NoDup (nodes G) /\
  (forall x, NoDup (adj G x)) /\
  (forall x y, In y (adj G x) -> In y (nodes G)) /\
  (forall x, In x (nodes G) <-> exists y, In y (adj G x)).
Proof.
  intros G.
  assert (Hedge : forall x y,
            In y (adj G x) <->
            exists l a b,
              In l (readlines contents) /\ edge_match l = Some (a, b) /\
              ((x = a /\ y = b) \/ (x = b /\ y = a))).
  { intros x y. unfold G, parse_graph_with_bases.
    rewrite parse_lines_edges. simpl.
    split; [intros [[]|H]; exact H | now right]. }
  assert (Hnode : forall x,
            In x (nodes G) <->
            exists l, In l (readlines contents) /\ In x (endpoints l)).
  { intros x. unfold G, parse_graph_with_bases.
    rewrite parse_lines_nodes, fold_add_new_in, in_flat_map. simpl.
    split; [intros [[]|H]; exact H | now right]. }
  assert (Hsym : forall x y, In y (adj G x) -> In x (adj G y)).
  { intros x y H. apply Hedge in H as (l & a & b & Hin & Hm & Hxy).
    apply Hedge. exists l, a, b. tauto. }
  assert (Hnb : forall x y, In y (adj G x) -> In y (nodes G)).
  { intros x y H. apply Hedge in H as (l & a & b & Hin & Hm & Hxy).
    apply Hnode. exists l. split; [assumption|]. unfold endpoints.
    rewrite Hm. simpl. intuition. }
  split; [split; apply Hsym|]. split; [|split; [|split; [exact Hnb|]]].
  - unfold G, parse_graph_with_bases. rewrite parse_lines_nodes.
    apply fold_add_new_nodup. constructor.
  - intros x. apply adj_nodup. unfold G, parse_graph_with_bases.
    apply parse_lines_values_nodup. constructor.
  - intros x. split.
    + intros H. apply Hnode in H as (l & Hin & Hx). unfold endpoints in Hx.
      destruct (edge_match l) as [[a b]|] eqn:E; [|destruct Hx].
      destruct Hx as [<-|[<-|[]]].
      * exists b. apply Hedge. exists l, a, b. auto.
      * exists a. apply Hedge. exists l, a, b. auto.
    + intros [y Hy]. apply Hsym in Hy. eapply Hnb; eauto.
Qed.

(** X3. The nodes of the parsed graph are the tokens of the edge lines of the
    file in the order in which they are first seen, the first token of a
    line before its second: the order the searches iterate in. *)
Theorem parsed_nodes_first_seen (contents : str) :
  nodes (fst (parse_graph_with_bases contents)) =
  first_seen (flat_map endpoints (readlines contents)).
Proof.
  unfold parse_graph_with_bases. now rewrite parse_lines_nodes.
Qed.

(** ** What the two patterns accept *)

Lemma edge_shape_line_feed (l a b rest : str) :
  edge_shape l a b rest -> edge_shape (with_LF l) a b (with_LF rest).
Proof.
  intros (ws & s1 & s2 & -> & H). exists ws, s1, s2. split; [|exact H].
  unfold with_LF. repeat (rewrite <- ?app_assoc; simpl). reflexivity.
Qed.

(** X4. A line is an edge line exactly when it is made of white space, a
    token, one white-space character, [--], one white-space character, a
    token, [;] and anything; the two groups of a match are such tokens, so
    that stripping them, as the parser does, changes nothing. *)
Theorem edge_pattern_accepts (l : str) :
  (is_edge_line l = true <-> exists a b rest, edge_shape l a b rest) /\
  (forall a b, edge_match l = Some (a, b) ->
               (exists rest, edge_shape l a b rest) /\
               strip a = a /\ strip b = b).
Proof.
  split.
  - unfold is_edge_line. split.
    + destruct (edge_match l) as [[a b]|] eqn:E; [|discriminate].
      intros _. apply edge_match_shape in E as [rest Hs]. now exists a, b, rest.
    + intros (a & b & rest & Hs). apply edge_shape_match in Hs.
      now destruct (edge_match l).
  - intros a b E. split; [now apply edge_match_shape|].
    destruct (edge_match_tokens _ _ _ E) as [[_ Ha] [_ Hb]].
    split; now apply strip_token.
Qed.

Lemma re_search_some (r : regex) (s : str) (g : list str) :
  re_search r s = Some g ->
  exists pre s', s = pre ++ s' /\ re_match r s' = Some g.
Proof.
  induction s as [|x s IH]; simpl.
  - destruct (re_match r []) eqn:E; [|discriminate].
    intros H; inversion H; subst. now exists [], [].
  - destruct (re_match r (x :: s)) eqn:E.
    + intros H; inversion H; subst. now exists [], (x :: s).
    + intros H. destruct (IH H) as (pre & s' & -> & Hm).
      now exists (x :: pre), s'.
Qed.

Lemma re_search_none (r : regex) (s : str) :
  re_search r s = None ->
  forall pre s', s = pre ++ s' -> re_match r s' = None.
Proof.
  induction s as [|x s IH]; simpl; intros H pre s' Heq.
  - symmetry in Heq. apply app_eq_nil in Heq as [-> ->].
    now destruct (re_match r []).
  - destruct (re_match r (x :: s)) eqn:E; [discriminate|].
    destruct pre as [|y pre]; simpl in Heq; [now subst|].
    inversion Heq; subst. now apply (IH H pre s').
Qed.

Ltac invert_matches :=
  repeat match goal with
         | H : matches (_ :: _) _ _ _ _ |- _ => inversion H; subst; clear H
         | H : matches [] _ _ _ _ |- _ => inversion H; subst; clear H
         end.

Lemma node_run_shape (s' : str) (caps : list str) (rest : str) :
  run node_pattern [] s' = Some (caps, rest) ->
  exists cnt node txt ws,
    caps = [cnt; node] /\
    s' = py "label=" ++ DQUOTE :: txt ++ "("%char :: cnt ++
         ")"%char :: DQUOTE :: "]"%char :: ws ++ node ++
         "}"%char :: ";"%char :: rest /\
    all_in is_dot txt /\
    cnt <> [] /\ all_in is_digit cnt /\
    ws <> [] /\ all_in is_space ws /\
    node <> [] /\ all_in non_space node.
Proof.
  intros H. apply run_sound in H.
  unfold node_pattern, lits, py in H. simpl in H.
  invert_matches.
  do 4 eexists. split; [reflexivity|]. split; [reflexivity|].
  repeat split; eassumption.
Qed.

Lemma node_match_shape (l cnt node : str) :
  node_match l = Some (cnt, node) -> node_shape l cnt node.
Proof.
  unfold node_match.
  destruct (re_search node_pattern l) as [g|] eqn:E; [|discriminate].
  apply re_search_some in E as (pre & s' & -> & Hm).
  unfold re_match in Hm.
  destruct (run node_pattern [] s') as [[caps rest]|] eqn:Er; [|discriminate].
  simpl in Hm. inversion Hm; subst g.
  destruct (node_run_shape _ _ _ Er)
    as (cnt' & node' & txt & ws & -> & -> & H).
  simpl. intros Heq; inversion Heq; subst.
  exists pre, txt, ws, rest. split; [reflexivity | exact H].
Qed.

Lemma node_shape_match (l cnt node : str) :
  node_shape l cnt node -> node_match l <> None.
Proof.
  intros (pre & txt & ws & rest & -> & Htxt & Hcne & Hc & Hwne & Hw &
          Hnne & Hn).
  set (s' := py "label=" ++ DQUOTE :: txt ++ "("%char :: cnt ++
             ")"%char :: DQUOTE :: "]"%char :: ws ++ node ++
             "}"%char :: ";"%char :: rest).
  assert (Hm : matches node_pattern [] s' [cnt; node] rest).
  { unfold node_pattern, lits, py, s'. simpl.
    do 7 constructor. constructor; [assumption|].
    constructor. constructor; [assumption..|].
    do 3 constructor. constructor; [assumption..|].
    constructor; [assumption..|]. do 3 constructor. }
  apply run_complete in Hm. unfold node_match.
  destruct (re_search node_pattern (pre ++ s')) as [g|] eqn:E.
  - apply re_search_some in E as (pre' & s'' & _ & Hg).
    unfold re_match in Hg.
    destruct (run node_pattern [] s'') as [[caps r]|] eqn:Er; [|discriminate].
    destruct (node_run_shape _ _ _ Er) as (c & n & _ & _ & -> & _).
    inversion Hg; subst. discriminate.
  - exfalso. pose proof (re_search_none _ _ E pre s' eq_refl) as Hn'.
    unfold re_match in Hn'. destruct (run node_pattern [] s'); [|congruence].
    discriminate.
Qed.

Lemma int_of_digits_nonneg (d : str) :
  all_in is_digit d -> (0 <= int_of_digits d)%Z.
Proof.
  unfold int_of_digits. intros Hd.
  assert (Hgen : forall acc, (0 <= acc)%Z ->
            (0 <= fold_left (fun acc c => 10 * acc + digit_val c) d acc)%Z).
  { induction Hd as [|x d Hx _ IH]; intros acc Hacc; cbn [fold_left];
      [assumption|].
    apply IH. unfold digit_val. unfold is_digit in Hx. cbv zeta in Hx.
    apply andb_true_iff in Hx as [Hlo _]. apply N.leb_le in Hlo. lia. }
  apply Hgen. lia.
Qed.

(** X6. A line is taken for a node declaration exactly when it holds
    [label="], text, a run of digits in parentheses, ["]], white space, a
    token and [};]; the two groups of a match are those digits and that
    token, so that the count recorded is not negative and stripping the
    node changes nothing. *)
Theorem node_pattern_accepts (l : str) :
  (node_match l <> None <-> exists cnt node, node_shape l cnt node) /\
  (forall cnt node, node_match l = Some (cnt, node) ->
                    node_shape l cnt node /\
                    (0 <= int_of_digits cnt)%Z /\ strip node = node).
Proof.
  split.
  - split.
    + destruct (node_match l) as [[cnt node]|] eqn:E; [|congruence].
      intros _. exists cnt, node. now apply node_match_shape.
    + intros (cnt & node & Hs). now apply node_shape_match in Hs.
  - intros cnt node E. pose proof (node_match_shape _ _ _ E) as Hs.
    split; [assumption|].
    destruct Hs as (pre & txt & ws & rest & _ & _ & _ & Hc & _ & _ & _ & Hn).
    split; [now apply int_of_digits_nonneg | now apply strip_token].
Qed.

(** ** The weight table built by the parser *)

Lemma dict_find_set {V} (d : dict V) (k n : str) (v : V) :
  dict_find (dict_set d k v) n =
  if str_eqb k n then Some v else dict_find d n.
Proof. unfold dict_set. now rewrite dict_find_upd. Qed.

Lemma parse_line_table (st : Graph * dict Z) (l n : str) :
  dict_find (snd (parse_line st l)) n =
  match declares n l with
  | Some v => Some v
  | None => dict_find (snd st) n
  end.
Proof.
  unfold parse_line, declares. simpl snd.
  destruct (node_match l) as [[cnt node]|] eqn:E; [|reflexivity].
  destruct (node_match_shape _ _ _ E)
    as (pre & txt & ws & rest & _ & _ & _ & _ & _ & _ & _ & Hn).
  rewrite (strip_token node Hn), dict_find_set.
  now destruct (str_eqb node n).
Qed.

Lemma parse_lines_table (ls : list str) (st : Graph * dict Z) (n : str) :
  dict_find (snd (fold_left parse_line ls st)) n =
  last_declared n ls (dict_find (snd st) n).
Proof.
  revert st. induction ls as [|l ls IH]; intros st; simpl; [reflexivity|].
  now rewrite IH, parse_line_table.
Qed.

Lemma declares_nonneg (n l : str) (v : Z) :
  declares n l = Some v -> (0 <= v)%Z.
Proof.
  unfold declares. destruct (node_match l) as [[cnt node]|] eqn:E;
    [|discriminate].
  destruct (str_eqb node n); [|discriminate].
  intros H; inversion H; subst.
  destruct (node_match_shape _ _ _ E)
    as (pre & txt & ws & rest & _ & _ & _ & Hc & _).
  now apply int_of_digits_nonneg.
Qed.

Lemma last_declared_nonneg (n : str) (ls : list str) (cur : option Z)
    (v : Z) :
  (forall w, cur = Some w -> (0 <= w)%Z) ->
  last_declared n ls cur = Some v -> (0 <= v)%Z.
Proof.
  revert cur. induction ls as [|l ls IH]; intros cur Hcur; simpl.
  - apply Hcur.
  - apply IH. destruct (declares n l) as [w|] eqn:E; [|exact Hcur].
    intros w' Hw. inversion Hw; subst. eapply declares_nonneg; eauto.
Qed.

(** X7. After parsing, the weight table holds for a node the base count of
    the last line of the file that declares it, and nothing for a node that
    no line declares; so the weight a search reads for a node, 0 when the
    table has none, is never negative. *)
Theorem parsed_weights (contents n : str) :
  dict_find (snd (parse_graph_with_bases contents)) n =
    last_declared n (readlines contents) None /\
  (0 <= dict_get (snd (parse_graph_with_bases contents)) n 0)%Z.
Proof.
  assert (H : dict_find (snd (parse_graph_with_bases contents)) n =
              last_declared n (readlines contents) None).
  { unfold parse_graph_with_bases. now rewrite parse_lines_table. }
  split; [assumption|]. unfold dict_get. rewrite H.
  destruct (last_declared n (readlines contents) None) as [v|] eqn:E; [|lia].
  eapply last_declared_nonneg; [|exact E]. discriminate.
Qed.

(** ** What the searches return *)

Section ImproveFacts.
Context {A : Type} (path : A -> list str) (metric : A -> Z).

Lemma improve_fold_result (cs : list A) (st : list str * Z) :
  fold_left (improve path metric) cs st = st \/
  exists c, In c cs /\
            fold_left (improve path metric) cs st = (path c, metric c).
Proof.
  revert st. induction cs as [|x cs IH]; intros st; simpl; [now left|].
  destruct (IH (improve path metric st x)) as [H | (c & Hin & H)].
  - rewrite H. unfold improve.
    destruct (metric x >? snd st)%Z; [right; exists x; auto | now left].
  - right. exists c. auto.
Qed.

Lemma improve_fold_grows (cs : list A) (st : list str * Z) :
  (snd st <= snd (fold_left (improve path metric) cs st))%Z.
Proof.
  revert st. induction cs as [|x cs IH]; intros st; simpl; [lia|].
  specialize (IH (improve path metric st x)).
  assert (Hstep : (snd st <= snd (improve path metric st x))%Z).
  { unfold improve. destruct (Z.gtb_spec (metric x) (snd st)); simpl; lia. }
  lia.
Qed.

Lemma improve_step_upper (st : list str * Z) (x : A) :
  (metric x <= snd (improve path metric st x))%Z.
Proof.
  unfold improve. destruct (Z.gtb_spec (metric x) (snd st)); simpl; lia.
Qed.

Lemma improve_fold_upper (cs : list A) (st : list str * Z) :
  Forall (fun c => (metric c <= snd (fold_left (improve path metric) cs st))%Z)
         cs.
Proof.
  revert st. induction cs as [|x cs IH]; intros st; simpl; constructor.
  - pose proof (improve_fold_grows cs (improve path metric st x)) as H.
    pose proof (improve_step_upper st x). lia.
  - apply IH.
Qed.
End ImproveFacts.

Lemma base_sum_nonneg (bc : dict Z) (p : list str) :
  (forall n, 0 <= dict_get bc n 0)%Z -> (0 <= base_sum bc p)%Z.
Proof.
  intros Hbc. unfold base_sum.
  assert (Hgen : forall acc, (0 <= acc)%Z ->
            (0 <= fold_left (fun acc n => acc + dict_get bc n 0) p acc)%Z).
  { induction p as [|n p IH]; intros acc Hacc; cbn [fold_left]; [assumption|].
    apply IH. specialize (Hbc n). lia. }
  apply Hgen. lia.
Qed.

Section SearchExtras.
Context {SP : ShortestPath}.

Lemma candidate_is_path (g : Graph) (c : str * str * list str) :
  In c (candidates g) ->
  is_path g (fst (fst c)) (snd (fst c)) (cand_path c).
Proof.
  intros Hin. apply candidate_path in Hin as (Hu & Hv & _ & Hsp).
  now apply sp_path.
Qed.

Lemma candidates_none_iff (g : Graph) :
  candidates g = [] <->
  (forall u v p, In u (nodes g) -> In v (nodes g) -> u <> v ->
                 ~ is_path g u v p).
Proof.
  split; [|apply no_path_no_candidates].
  intros Hnil u v p Hu Hv Hne Hp.
  destruct (shortest_path g u v) as [q|] eqn:E.
  - assert (Hin : In (u, v, q) (candidates g))
      by (apply candidates_in; auto).
    now rewrite Hnil in Hin.
  - now apply (sp_found g u v p) in E.
Qed.

Lemma by_edges_cases (g : Graph) :
  (candidates g = [] /\ find_longest_path_by_edges g = ([], (-1)%Z)) \/
  (exists c, In c (candidates g) /\
             find_longest_path_by_edges g = (cand_path c, edge_metric c)).
Proof.
  destruct (candidates g) as [|c0 cs] eqn:E.
  - left. split; [reflexivity|]. rewrite edges_fold, E. reflexivity.
  - right. destruct (earliest_max_exists edge_metric (candidates g))
      as [c Hmax]; [rewrite E; discriminate|].
    exists c. rewrite <- E. split; [eapply earliest_max_in; eauto|].
    now apply by_edges_earliest.
Qed.

Lemma by_bases_cases (g : Graph) (bc : dict Z) :
  find_longest_path_by_bases g bc = ([], 0%Z) \/
  (exists c, In c (candidates g) /\ (0 < base_metric bc c)%Z /\
             find_longest_path_by_bases g bc =
             (cand_path c, base_metric bc c)).
Proof.
  rewrite bases_fold.
  destruct (improve_fold_result cand_path (base_metric bc) (candidates g)
              ([], 0%Z)) as [H | (c & Hin & H)]; [now left|].
  pose proof (improve_fold_grows cand_path (base_metric bc) (candidates g)
                ([], 0%Z)) as Hg.
  change (fun c0 => base_sum bc (cand_path c0)) with (base_metric bc).
  rewrite H in *. simpl in Hg.
  destruct (Z.eq_dec (base_metric bc c) 0) as [Hz|Hnz].
  - destruct (Forall_Exists_dec (fun x => (base_metric bc x <= 0)%Z)
                (fun x => Z_le_dec (base_metric bc x) 0) (candidates g))
      as [Hall | Hex].
    + left. rewrite <- H. now apply improve_keeps.
    + exfalso. apply Exists_exists in Hex as (x & Hx & Hgt).
      pose proof (improve_fold_upper cand_path (base_metric bc)
                    (candidates g) ([], 0%Z)) as Hup.
      rewrite Forall_forall in Hup. specialize (Hup x Hx).
      rewrite H in Hup. simpl in Hup. lia.
  - right. exists c. repeat split; [assumption | lia].
Qed.
Lemma by_bases_upper (g : Graph) (bc : dict Z) :
  Forall (fun c => (base_metric bc c <=
                    snd (find_longest_path_by_bases g bc))%Z)
         (candidates g).
Proof.
  rewrite bases_fold. apply (improve_fold_upper cand_path (base_metric bc)).
Qed.
End SearchExtras.

(** X8. In both searches the metric returned is the metric of the path
    returned: its number of nodes less one in the search by edges (-1 for
    the empty path), the sum of its nodes' weights in the search by bases. *)
Theorem search_metric_of_path {SP : ShortestPath} (g : Graph)
    (bc : dict Z) :
  snd (find_longest_path_by_edges g) =
    edge_count (fst (find_longest_path_by_edges g)) /\
  snd (find_longest_path_by_bases g bc) =
    base_sum bc (fst (find_longest_path_by_bases g bc)).
Proof.
  split.
  - destruct (by_edges_cases g) as [[_ ->] | (c & _ & ->)]; reflexivity.
  - destruct (by_bases_cases g bc) as [-> | (c & _ & _ & ->)]; reflexivity.
Qed.

(** X9. Whatever the graph, the path a search returns is either empty or the
    shortest path found for two distinct nodes of the graph, hence a path
    of the graph from the one to the other. *)
Theorem search_result_sound {SP : ShortestPath} (g : Graph) (bc : dict Z) :
  let found (p : list str) :=
    p = [] \/
    exists u v, In u (nodes g) /\ In v (nodes g) /\ u <> v /\
                shortest_path g u v = Some p /\ is_path g u v p in
  found (fst (find_longest_path_by_edges g)) /\
  found (fst (find_longest_path_by_bases g bc)).
Proof.
  assert (Hc : forall c, In c (candidates g) ->
            exists u v, In u (nodes g) /\ In v (nodes g) /\ u <> v /\
                        shortest_path g u v = Some (cand_path c) /\
                        is_path g u v (cand_path c)).
  { intros [[u v] p] Hin. pose proof (candidate_is_path g _ Hin) as Hp.
    apply candidates_in in Hin as (Hu & Hv & Hne & Hsp).
    exists u, v. auto. }
  split.
  - destruct (by_edges_cases g) as [[_ ->] | (c & Hin & ->)];
      [now left | right; now apply Hc].
  - destruct (by_bases_cases g bc) as [-> | (c & Hin & _ & ->)];
      [now left | right; now apply Hc].
Qed.

(** X10. The metric returned is an upper bound: no shortest path found for a
    pair of distinct nodes has more edges than the search by edges reports,
    or a larger base sum than the search by bases reports; the latter
    reports at least 0. *)
Theorem search_result_maximal {SP : ShortestPath} (g : Graph)
    (bc : dict Z) :
  Forall (fun c => (edge_metric c <= snd (find_longest_path_by_edges g))%Z)
         (candidates g) /\
  Forall (fun c => (base_metric bc c <=
                    snd (find_longest_path_by_bases g bc))%Z)
         (candidates g) /\
  (0 <= snd (find_longest_path_by_bases g bc))%Z.
Proof.
  split; [|split].
  - rewrite edges_fold. cbv zeta. cbn [snd].
    pose proof (improve_fold_upper cand_path
                  (fun c => Z.of_nat (length (cand_path c)))
                  (candidates g) ([], 0%Z)) as Hup.
    eapply Forall_impl; [|exact Hup].
    intros c Hc. cbv beta in Hc. unfold edge_metric, edge_count. lia.
  - apply by_bases_upper.
  - rewrite bases_fold.
    apply (improve_fold_grows cand_path (fun c => base_sum bc (cand_path c))
             (candidates g) ([], 0%Z)).
Qed.

(** X11. The search by edges returns the empty path exactly when no two
    distinct nodes of the graph are joined by a path; the search by bases
    returns it exactly when no shortest path found has a positive base
    sum. *)
Theorem search_result_empty {SP : ShortestPath} (g : Graph) (bc : dict Z) :
  (fst (find_longest_path_by_edges g) = [] <->
   forall u v p, In u (nodes g) -> In v (nodes g) -> u <> v ->
                 ~ is_path g u v p) /\
  (fst (find_longest_path_by_bases g bc) = [] <->
   Forall (fun c => (base_metric bc c <= 0)%Z) (candidates g)).
Proof.
  assert (Hne : forall c, In c (candidates g) -> cand_path c <> []).
  { intros c Hin Hnil. apply candidate_is_path in Hin.
    apply is_path_nonempty in Hin as [t Ht]. congruence. }
  split.
  - rewrite <- candidates_none_iff.
    destruct (by_edges_cases g) as [[Hnil ->] | (c & Hin & ->)]; simpl.
    + tauto.
    + split; [intros H; now apply Hne in H | intros H].
      now rewrite H in Hin.
  - split.
    + intros Hnil.
      destruct (by_bases_cases g bc) as [Hr | (c & Hin & _ & Hr)].
      * pose proof (by_bases_upper g bc) as Hup. now rewrite Hr in Hup.
      * rewrite Hr in Hnil. now apply Hne in Hnil.
    + intros Hall. now rewrite by_bases_none.
Qed.

(** ** The command-line tool *)

Lemma parsed_adj_lines (contents x y : str) :
  In y (adj (fst (parse_graph_with_bases contents)) x) <->
  exists l a b,
    In l (readlines contents) /\ edge_match l = Some (a, b) /\
    ((x = a /\ y = b) \/ (x = b /\ y = a)).
Proof.
  unfold parse_graph_with_bases. rewrite parse_lines_edges. simpl.
  split; [intros [[]|H]; exact H | now right].
Qed.

Lemma parsed_nodes_lines (contents x : str) :
  In x (nodes (fst (parse_graph_with_bases contents))) <->
  exists l, In l (readlines contents) /\ In x (endpoints l).
Proof.
  unfold parse_graph_with_bases.
  rewrite parse_lines_nodes, fold_add_new_in, in_flat_map. simpl.
  split; [intros [[]|H]; exact H | now right].
Qed.

Lemma parsed_weights_nonneg (contents n : str) :
  (0 <= dict_get (snd (parse_graph_with_bases contents)) n 0)%Z.
Proof.
  unfold dict_get, parse_graph_with_bases. rewrite parse_lines_table.
  destruct (last_declared n (readlines contents) _) as [v|] eqn:E; [|lia].
  eapply last_declared_nonneg; [|exact E]. discriminate.
Qed.

Lemma self_loops_stay (g : Graph) (p : list str) (u v : str) :
  (forall x y, In y (adj g x) -> y = x) -> is_path g u v p -> v = u.
Proof.
  intros Hself. revert u. induction p as [|x t IH]; intros u Hp.
  - destruct Hp as (Hh & _). discriminate.
  - destruct (is_path_nonempty _ _ _ _ Hp) as [t' Heq].
    inversion Heq; subst x t'. destruct t as [|w t].
    + destruct Hp as (_ & Hl & _). now simpl in Hl.
    + apply is_path_uncons in Hp as (Hw & Hp').
      apply Hself in Hw. subst w. now apply IH.
Qed.

Lemma parsed_no_pair_iff (contents : str) :
  let G := fst (parse_graph_with_bases contents) in
  (forall u v p, In u (nodes G) -> In v (nodes G) -> u <> v ->
                 ~ is_path G u v p) <->
  (forall l a b, In l (readlines contents) -> edge_match l = Some (a, b) ->
                 a = b).
Proof.
  intros G. split.
  - intros Hno l a b Hin Hm. destruct (str_eq_dec a b) as [|Hne];
      [assumption|]. exfalso.
    assert (Ha : In a (nodes G)).
    { apply parsed_nodes_lines. exists l. split; [assumption|].
      unfold endpoints. rewrite Hm. now left. }
    assert (Hb : In b (nodes G)).
    { apply parsed_nodes_lines. exists l. split; [assumption|].
      unfold endpoints. rewrite Hm. right. now left. }
    apply (Hno a b [a; b] Ha Hb Hne).
    eapply is_path_step; [|apply is_path_single].
    apply parsed_adj_lines. exists l, a, b. auto.
  - intros Hself u v p _ _ Hne Hp. apply Hne. symmetry.
    eapply self_loops_stay; [|exact Hp].
    intros x y Hxy. apply parsed_adj_lines in Hxy as (l & a & b & Hin & Hm & H).
    specialize (Hself l a b Hin Hm). subst b.
    destruct H as [[-> ->] | [-> ->]]; reflexivity.
Qed.

Lemma report_index_error (p : list str) (label : str) (m : Z) :
  report p label m = IndexError <-> p = [].
Proof. destruct p; simpl; split; congruence. Qed.

(** X12. The command-line tool, run without [-b], ends in an [IndexError]
    exactly when every edge line of the file joins a token to itself (as
    when the file has no edge line); run with [-b], exactly when no
    shortest path found has a base sum other than 0. When it prints, the
    first line names the two distinct end nodes of the path printed, and the
    number printed as [Total Node Count] is the number of edges of the
    path, one less than its number of nodes. *)
Theorem main_outcome {SP : ShortestPath} (contents : str) :
  let G := fst (parse_graph_with_bases contents) in
  let base_counts := snd (parse_graph_with_bases contents) in
  (main false contents = IndexError <->
   forall l a b, In l (readlines contents) -> edge_match l = Some (a, b) ->
                 a = b) /\
  (main true contents = IndexError <->
   Forall (fun c => base_metric base_counts c = 0%Z) (candidates G)) /\
  (forall base,
      match main base contents with
      | IndexError => True
      | Printed first_line p label m =>
          exists u v,
            u <> v /\ is_path G u v p /\
            first_line = u ++ py " ~ " ++ v /\
            (label, m) =
            if base then (py "Total Base Count", base_sum base_counts p)
            else (py "Total Node Count", (Z.of_nat (length p) - 1)%Z)
      end).
Proof.
  intros G bc.
  assert (Hne : forall c, In c (candidates G) -> cand_path c <> []).
  { intros c Hin Hnil. apply candidate_is_path in Hin.
    apply is_path_nonempty in Hin as [t Ht]. congruence. }
  assert (Hrep : forall c label m, In c (candidates G) ->
            exists u v, u <> v /\ is_path G u v (cand_path c) /\
                        report (cand_path c) label m =
                        Printed (u ++ py " ~ " ++ v) (cand_path c) label m).
  { intros [[u v] p] label m Hin.
    pose proof (candidate_is_path G _ Hin) as Hp. simpl in Hp.
    apply candidates_in in Hin as (_ & _ & Huv & _).
    exists u, v. split; [assumption|]. split; [assumption|].
    unfold cand_path. simpl snd.
    destruct (is_path_nonempty _ _ _ _ Hp) as [t ->].
    destruct Hp as (_ & Hl & _). unfold report. now rewrite Hl. }
  split; [|split].
  - unfold main. fold G. rewrite report_index_error.
    rewrite <- (parsed_no_pair_iff contents). fold G.
    rewrite <- candidates_none_iff.
    destruct (by_edges_cases G) as [[Hnil ->] | (c & Hin & ->)]; simpl.
    + tauto.
    + split; [intros H; now apply Hne in H | intros H].
      now rewrite H in Hin.
  - unfold main. fold G. fold bc. rewrite report_index_error.
    assert (Hz : Forall (fun c => base_metric bc c = 0%Z) (candidates G) <->
                 Forall (fun c => (base_metric bc c <= 0)%Z) (candidates G)).
    { split; intros H; (eapply Forall_impl; [|exact H]); intros c Hc;
        cbv beta in *; [lia|].
      pose proof (base_sum_nonneg bc (cand_path c)
                    (parsed_weights_nonneg contents)) as Hnn.
      unfold base_metric in *. lia. }
    rewrite Hz. split.
    + intros Hnil.
      destruct (by_bases_cases G bc) as [Hr | (c & Hin & _ & Hr)].
      * pose proof (by_bases_upper G bc) as Hup. now rewrite Hr in Hup.
      * rewrite Hr in Hnil. now apply Hne in Hnil.
    + intros Hall. now rewrite by_bases_none.
  - intros [|]; unfold main; fold G; fold bc.
    + destruct (by_bases_cases G bc) as [-> | (c & Hin & _ & ->)];
        [exact I|]. simpl fst. simpl snd.
      destruct (Hrep c (py "Total Base Count") (base_metric bc c) Hin)
        as (u & v & Huv & Hp & ->).
      exists u, v. auto.
    + destruct (by_edges_cases G) as [[_ ->] | (c & Hin & ->)];
        [exact I|]. simpl fst. simpl snd.
      destruct (Hrep c (py "Total Node Count") (edge_metric c) Hin)
        as (u & v & Huv & Hp & ->).
      exists u, v. auto.
Qed.

(** ** What the scan of the collapser records *)

Lemma scan_line_edges (st : scan_state) (l : str) :
  edge_lines (scan_line st l) = edge_lines st \/
  exists a b, edge_match l = Some (a, b) /\
              has_i a = false /\ has_i b = false /\
              edge_lines (scan_line st l) = edge_lines st ++ [(a, b)].
Proof.
  unfold scan_line, keep_line.
  destruct (startswith (strip l) (py "graph G {")); [now left|].
  destruct (if str_eqb (strip l) (py "}") then false else inside_graph st);
    [|now left].
  destruct (edge_match l) as [[a b]|]; [|now left].
  destruct (has_i a) eqn:Ea; [now left|].
  destruct (has_i b) eqn:Eb; [now left|].
  right. exists a, b. auto.
Qed.

Lemma scan_line_connections (st : scan_state) (l : str) :
  node_connections (scan_line st l) = node_connections st \/
  exists k n, has_i k = true /\ partner k l = Some n /\
              node_connections (scan_line st l) =
              setdefault_append (node_connections st) k n.
Proof.
  unfold scan_line, keep_line, partner.
  destruct (startswith (strip l) (py "graph G {")); [now left|].
  destruct (if str_eqb (strip l) (py "}") then false else inside_graph st);
    [|now left].
  destruct (edge_match l) as [[a b]|]; [|now left].
  destruct (has_i a) eqn:Ea; simpl.
  - right. exists a, b. rewrite str_eqb_refl. auto.
  - destruct (has_i b) eqn:Eb; simpl; [|now left].
    right. exists b, a. rewrite str_eqb_refl. auto.
Qed.

Lemma dict_upd_keys_values {V} (P : str -> V -> Prop) (d : dict V) (k : str)
    (init : V) (f : V -> V) :
  Forall (fun kv => P (fst kv) (snd kv)) d ->
  (forall v, P k (f v)) ->
  Forall (fun kv => P (fst kv) (snd kv)) (dict_upd d k init f).
Proof.
  intros Hd Hf. induction Hd as [|[k0 v0] d Hv Hd IH]; simpl.
  - repeat constructor. apply Hf.
  - destruct (str_eqb_spec k0 k) as [->|]; constructor; simpl; auto.
Qed.

Lemma scan_line_records (st : scan_state) (l : str) :
  records_ok st -> records_ok (scan_line st l).
Proof.
  intros (He & Hc & Hk). split; [|split].
  - destruct (scan_line_edges st l) as [-> | (a & b & _ & Ha & Hb & ->)];
      [assumption|].
    apply Forall_app. split; [assumption|]. repeat constructor; assumption.
  - destruct (scan_line_connections st l) as [-> | (k & n & Hi & _ & ->)];
      [assumption|].
    apply (dict_upd_keys_values
             (fun k v => has_i k = true /\ v <> [])); [assumption|].
    intros v. split; [assumption|]. now destruct v.
  - destruct (scan_line_connections st l) as [-> | (k & n & _ & _ & ->)];
      [assumption|].
    unfold setdefault_append. rewrite keys_upd. now apply add_new_nodup.
Qed.

Lemma scan_fold_records (ls : list str) (st : scan_state) :
  records_ok st -> records_ok (fold_left scan_line ls st).
Proof.
  revert st. induction ls as [|l ls IH]; intros st H; simpl; [assumption|].
  apply IH. now apply scan_line_records.
Qed.

(** X13. What the scan records, whatever the text: no kept direct edge has an
    endpoint containing [i]; every intermediate recorded contains [i], is
    recorded once, and has at least one neighbour. *)
Theorem scan_records (text : str) :
  Forall no_i (edge_lines (scan text)) /\
  Forall (fun kv => has_i (fst kv) = true /\ snd kv <> [])
         (node_connections (scan text)) /\
  NoDup (map fst (node_connections (scan text))).
Proof.
  apply (scan_fold_records (surviving_lines text) scan_init).
  repeat split; constructor.
Qed.

Lemma dict_upd_get {V} (d : dict V) (k k' : str) (init : V) (f : V -> V) :
  dict_get (dict_upd d k init f) k' init =
  if str_eqb k k' then f (dict_get d k init) else dict_get d k' init.
Proof.
  unfold dict_get at 1. rewrite dict_find_upd.
  now destruct (str_eqb k k').
Qed.

Lemma scan_line_recorded (st : scan_state) (l k : str) :
  dict_get (node_connections (scan_line st l)) k [] =
  dict_get (node_connections st) k [] ++
  (if opens l then [] else if closes l then []
   else if inside_graph st then
     match partner k l with Some n => [n] | None => [] end
   else []).
Proof.
  unfold scan_line, keep_line, opens, closes, partner.
  destruct (startswith (strip l) (py "graph G {")); [now rewrite app_nil_r|].
  destruct (str_eqb (strip l) (py "}")); [now rewrite app_nil_r|].
  destruct (inside_graph st); [|now rewrite app_nil_r].
  destruct (edge_match l) as [[a b]|]; [|now rewrite app_nil_r].
  destruct (has_i a) eqn:Ea; simpl.
  - unfold setdefault_append. rewrite dict_upd_get.
    destruct (str_eqb_spec a k) as [->|]; [reflexivity|].
    now rewrite app_nil_r.
  - destruct (has_i b) eqn:Eb; simpl; [|now rewrite app_nil_r].
    unfold setdefault_append. rewrite dict_upd_get.
    destruct (str_eqb_spec b k) as [->|]; [reflexivity|].
    now rewrite app_nil_r.
Qed.

Lemma scan_fold_recorded (ls : list str) (st : scan_state) (k : str) :
  dict_get (node_connections (fold_left scan_line ls st)) k [] =
  dict_get (node_connections st) k [] ++ recorded k (inside_graph st) ls.
Proof.
  revert st. induction ls as [|l ls IH]; intros st; simpl.
  - now rewrite app_nil_r.
  - rewrite IH, scan_line_inside, scan_line_recorded, <- app_assoc.
    f_equal. destruct (opens l); [reflexivity|].
    destruct (closes l); [reflexivity|].
    destruct (inside_graph st); [|reflexivity].
    now destruct (partner k l).
Qed.

(** X14. The neighbour list recorded for an intermediate [k] holds, in the
    order of the lines, one entry for every edge line inside the graph
    block whose first token containing [i] is [k]: the other token of that
    line, repeated when such lines repeat. *)
Theorem recorded_neighbours (text k : str) :
  dict_get (node_connections (scan text)) k [] =
  recorded k false (surviving_lines text).
Proof. unfold scan. now rewrite scan_fold_recorded. Qed.

(** X15. The pairs generated for an intermediate hold no pair of a node with
    itself exactly when no neighbour is recorded twice for it: a repeated
    neighbour gives an edge from that node to itself. *)
Theorem clique_self_pairs (N : list str) :
  NoDup N <-> forall n, ~ In (n, n) (clique N).
Proof.
  induction N as [|x t IH].
  - split; [intros _ n [] | constructor].
  - split.
    + intros Hnd n. inversion Hnd as [|? ? Hx Ht]; subst.
      rewrite clique_cons, in_app_iff, in_map_iff.
      intros [(y & Heq & Hy) | Hin].
      * inversion Heq; subst. contradiction.
      * now apply (proj1 IH Ht n).
    + intros Hno. constructor.
      * intros Hx. apply (Hno x). rewrite clique_cons.
        apply in_or_app. left. now apply in_map.
      * apply IH. intros n Hin. apply (Hno n). rewrite clique_cons.
        apply in_or_app. now right.
Qed.

(** ** What the collapser emits *)

Lemma scan_line_neighbours (st : scan_state) (l : str) :
  not_loop_to_loop l -> neighbours_no_i st ->
  neighbours_no_i (scan_line st l).
Proof.
  unfold not_loop_to_loop, neighbours_no_i, scan_line, keep_line.
  intros Hl Hst.
  destruct (startswith (strip l) (py "graph G {")); [assumption|].
  destruct (if str_eqb (strip l) (py "}") then false else inside_graph st);
    [|assumption].
  destruct (edge_match l) as [[a b]|]; [|assumption].
  assert (Happ : forall k n, has_i n = false ->
            Forall (fun kv => Forall (fun n => has_i n = false) (snd kv))
                   (setdefault_append (node_connections st) k n)).
  { intros k n Hn. unfold setdefault_append.
    apply (dict_upd_values (Forall (fun n => has_i n = false)));
      [assumption | simpl; now repeat constructor |].
    intros v Hv. apply Forall_app. split; [assumption|].
    now repeat constructor. }
  destruct (has_i a) eqn:Ea; simpl in *.
  - now apply Happ.
  - destruct (has_i b) eqn:Eb; simpl; [now apply Happ | assumption].
Qed.

Lemma scan_fold_neighbours (ls : list str) (st : scan_state) :
  Forall not_loop_to_loop ls -> neighbours_no_i st ->
  neighbours_no_i (fold_left scan_line ls st).
Proof.
  intros Hls. revert st. induction Hls as [|l ls Hl _ IH]; intros st Hst;
    simpl; [assumption|].
  apply IH. now apply scan_line_neighbours.
Qed.

(** X16. When no edge line of the text joins two tokens that both contain
    [i], no edge that the collapser emits has an endpoint containing [i]:
    the loop nodes are gone from the edges. *)
Theorem loops_eliminated {SO : SetOrder} (text : str) :
  Forall not_loop_to_loop (surviving_lines text) ->
  Forall no_i (sorted_edges text).
Proof.
  intros Hls. apply Forall_forall. intros e He.
  apply sorted_edges_in in He. unfold all_edges in He.
  apply in_app_or in He as [He | He].
  - pose proof (scan_fold_records (surviving_lines text) scan_init) as Hr.
    destruct Hr as (Hd & _); [repeat split; constructor|].
    rewrite Forall_forall in Hd. now apply Hd.
  - assert (Hn : neighbours_no_i (scan text)).
    { apply (scan_fold_neighbours (surviving_lines text) scan_init Hls).
      constructor. }
    unfold neighbours_no_i in Hn. rewrite Forall_forall in Hn.
    unfold expansion in He. apply in_flat_map in He as (kv & Hkv & He).
    specialize (Hn kv Hkv).
    rewrite Forall_forall in Hn. destruct e as [a b].
    apply clique_in in He as (i & j & _ & Hi & Hj).
    split; apply Hn; eapply nth_error_In; eauto.
Qed.

Lemma loops_eliminated_witness : Forall no_i (sorted_edges loop_text).
Proof.
  apply (loops_eliminated loop_text).
  repeat constructor.
Defined.

(** X17. Every edge line that the collapser emits is an edge line for the
    parser and the collapser alike, with the two endpoints it was formatted
    from as its tokens. *)
Theorem emitted_edge_round_trip {SO : SetOrder} (text : str) :
  Forall (fun e => edge_match (format_edge e) = Some e) (sorted_edges text).
Proof.
  apply Forall_forall. intros e He. apply sorted_edges_in in He.
  pose proof (all_edges_tokens text) as Ht. rewrite Forall_forall in Ht.
  rewrite format_edge_text. now apply edge_text_match, Ht.
Qed.

Lemma scan_outside (ls : list str) (st : scan_state) :
  Forall (fun l => opens l = false) ls -> inside_graph st = false ->
  fold_left scan_line ls st =
  {| inside_graph := false;
     filtered_lines := filtered_lines st ++ ls;
     edge_lines := edge_lines st;
     node_connections := node_connections st |}.
Proof.
  intros Hls. revert st. induction Hls as [|l ls Hl _ IH]; intros st Hst.
  - simpl. rewrite app_nil_r. destruct st. simpl in Hst. now subst.
  - simpl. assert (Hstep : scan_line st l = keep_line st false l).
    { unfold scan_line. unfold opens in Hl. rewrite Hl, Hst.
      now destruct (str_eqb (strip l) (py "}")). }
    rewrite Hstep, IH by reflexivity. simpl. now rewrite <- app_assoc.
Qed.

Lemma set_to_list_nil {SO : SetOrder} : set_to_list [] = [].
Proof.
  destruct (set_to_list []) as [|e l] eqn:E; [reflexivity|].
  assert (Hin : In e (set_to_list [])) by (rewrite E; now left).
  apply (proj1 (set_in [] e)) in Hin. destruct Hin.
Qed.

(** X18. A text in which no line opens the graph block has all its lines
    outside the block: no edge is collected, and the output is the lines
    left after the removal of the loop-node declarations, the last of them
    replaced by [}]. *)
Theorem blockless_text_passes {SO : SetOrder} (text : str) :
  Forall (fun l => opens l = false) (surviving_lines text) ->
  all_edges text = [] /\
  filter_internal_loops text =
    join [LF] (removelast (surviving_lines text) ++ [py "}"]).
Proof.
  intros Hls.
  pose proof (scan_outside (surviving_lines text) scan_init Hls eq_refl) as Hs.
  assert (He : all_edges text = []).
  { unfold all_edges, scan. now rewrite Hs. }
  split; [assumption|].
  unfold filter_internal_loops, sorted_edges. rewrite He, set_to_list_nil.
  unfold scan. now rewrite Hs.
Qed.

Lemma blockless_text_passes_witness :
  all_edges blockless_text = [] /\
  filter_internal_loops blockless_text =
    join [LF] (removelast (surviving_lines blockless_text) ++ [py "}"]).
Proof.
  apply (blockless_text_passes blockless_text).
  repeat constructor.
Defined.

(** ** The order of the emitted edges *)

Lemma num_lt_asym (x y : num) : num_lt x y -> num_lt y x -> False.
Proof.
  intros H1 H2. apply (num_lt_irrefl x). eapply num_lt_trans; eauto.
Qed.

Lemma key_le_antisym (k1 k2 : num * num) :
  key_le k1 k2 -> key_le k2 k1 -> k1 = k2.
Proof.
  destruct k1 as [a1 b1], k2 as [a2 b2]. unfold key_le, num_le. simpl.
  intros [H1 | [-> [H1 | ->]]] [H2 | [Heq [H2 | Hb]]]; subst;
    try reflexivity; exfalso;
    first [ eapply num_lt_asym; eassumption
          | eapply num_lt_irrefl; eassumption ].
Qed.

Lemma sorted_perm_unique {A} (R : A -> A -> Prop) (l1 l2 : list A) :
  StronglySorted R l1 -> StronglySorted R l2 -> Permutation l1 l2 ->
  (forall x y, In x l1 -> In y l1 -> R x y -> R y x -> x = y) ->
  l1 = l2.
Proof.
  intros H1. revert l2. induction H1 as [|x t1 Hs1 IH Hx]; intros l2 H2 Hp Ha.
  - apply Permutation_nil in Hp. now subst.
  - destruct l2 as [|y t2];
      [apply Permutation_sym, Permutation_nil in Hp; discriminate|].
    inversion H2 as [|? ? Hs2 Hy]; subst.
    assert (Hxy : x = y).
    { assert (Hinx : In x (y :: t2))
        by (eapply Permutation_in; [exact Hp | now left]).
      assert (Hiny : In y (x :: t1))
        by (eapply Permutation_in; [symmetry; exact Hp | now left]).
      destruct Hinx as [|Hinx]; [congruence|].
      destruct Hiny as [|Hiny]; [congruence|].
      rewrite Forall_forall in Hx, Hy.
      apply Ha; [now left | now right | now apply Hx | now apply Hy]. }
    subst y. f_equal. apply IH; [assumption | |].
    + eapply Permutation_cons_inv; eauto.
    + intros a b Hina Hinb. apply Ha; now right.
Qed.

(** X19. When no two of the collected edges have the same sort key, the
    output does not depend on the order in which the set of edges is read:
    any two readings give the same text. *)
Theorem output_order_independent (SO1 SO2 : SetOrder) (text : str) :
  (forall e1 e2, In e1 (all_edges text) -> In e2 (all_edges text) ->
                 sort_key e1 = sort_key e2 -> e1 = e2) ->
  @filter_internal_loops SO1 text = @filter_internal_loops SO2 text.
Proof.
  intros Hinj. unfold filter_internal_loops.
  replace (@sorted_edges SO2 text) with (@sorted_edges SO1 text);
    [reflexivity|].
  apply (sorted_perm_unique (by_key sort_key)).
  - apply sort_by_strongly_sorted.
  - apply sort_by_strongly_sorted.
  - apply NoDup_Permutation; try apply sorted_edges_nodup.
    intros e. now rewrite !sorted_edges_in.
  - intros e1 e2 H1 H2 H12 H21. apply sorted_edges_in in H1, H2.
    apply Hinj; [assumption..|]. now apply key_le_antisym.
Qed.

Lemma output_order_independent_witness :
  @filter_internal_loops nodup_order loop_text =
  @filter_internal_loops reversed_order loop_text.
Proof.
  apply (output_order_independent nodup_order reversed_order loop_text).
  intros e1 e2 H1 H2.
  change (all_edges loop_text)
    with [(py "n2", py "n4"); (py "n3", py "n1"); (py "n3", py "n2");
          (py "n1", py "n2")] in H1, H2.
  destruct H1 as [<-|[<-|[<-|[<-|[]]]]];
    destruct H2 as [<-|[<-|[<-|[<-|[]]]]]; intros Hk;
    first [reflexivity | vm_compute in Hk; discriminate Hk].
Defined.

(** ** Repeated edge lines *)

Lemma dict_upd_same {V} (d : dict V) (k : str) (init v : V) (f : V -> V) :
  dict_find d k = Some v -> f v = v -> dict_upd d k init f = d.
Proof.
  intros Hfind Hf. induction d as [|[k0 v0] d IH]; simpl in *; [discriminate|].
  destruct (str_eqb k0 k).
  - inversion Hfind; subst. now rewrite Hf.
  - now rewrite IH.
Qed.

Lemma adj_find (g : Graph) (u w : str) :
  In w (adj g u) -> dict_find g u = Some (adj g u).
Proof.
  unfold adj, dict_get. destruct (dict_find g u); [reflexivity | intros []].
Qed.

Lemma list_add_same (v : str) (l : list str) : In v l -> list_add v l = l.
Proof. apply add_new_same. Qed.

Lemma add_edge_present (g : Graph) (u v : str) :
  In v (adj g u) -> In u (adj g v) -> add_edge g u v = g.
Proof.
  intros Huv Hvu. unfold add_edge.
  assert (Hn : forall w x, In x (adj g w) -> add_node g w = g).
  { intros w x Hx. unfold add_node, dict_mem.
    now rewrite (adj_find g w x Hx). }
  rewrite (Hn u v Huv), (Hn v u Hvu).
  rewrite (dict_upd_same g u [] (adj g u));
    [|now apply (adj_find g u v) | now apply list_add_same].
  apply (dict_upd_same g v [] (adj g v));
    [now apply (adj_find g v u) | now apply list_add_same].
Qed.

(** X20. An edge line whose edge is in the graph already, written in either
    direction, leaves the graph as it is: nodes, neighbours and their order.
    Repeating an edge line in the file changes nothing. *)
Theorem repeated_edge_line (st : Graph * dict Z) (l a b : str) :
  edge_match l = Some (a, b) ->
  In b (adj (fst st) a) -> In a (adj (fst st) b) ->
  fst (parse_line st l) = fst st.
Proof.
  intros Hm Hab Hba. rewrite parse_line_graph, Hm.
  now apply add_edge_present.
Qed.

Lemma repeated_edge_line_witness :
  fst (parse_line (row3, row3_bases) (line "n2 -- n1;")) = row3.
Proof.
  apply (repeated_edge_line (row3, row3_bases) (line "n2 -- n1;")
           (py "n2") (py "n1")); [reflexivity | now left | now left].
Defined.

(** ** The line feed at the end of a line *)

Lemma greedy_line_feed (c : ascii -> bool)
    (k : str -> option (list str * str)) (s : str) :
  lf_stable k -> greedy c k (s ++ [LF]) = push_LF (greedy c k s).
Proof.
  intros [Hnil Hk]. induction s as [|x s IH]; simpl.
  - pose proof (Hk []) as H0. simpl in H0. rewrite Hnil in H0. simpl in H0.
    rewrite H0, Hnil. now destruct (c LF).
  - destruct (c x).
    + rewrite IH. destruct (greedy c k s) as [r|]; [reflexivity|].
      simpl. apply (Hk (x :: s)).
    + apply (Hk (x :: s)).
Qed.

Lemma lazy_line_feed (c : ascii -> bool)
    (k : str -> option (list str * str)) (s : str) :
  lf_stable k -> lazy_run c k (s ++ [LF]) = push_LF (lazy_run c k s).
Proof.
  intros [Hnil Hk]. induction s as [|x s IH]; simpl.
  - pose proof (Hk []) as H0. simpl in H0. rewrite Hnil in H0. simpl in H0.
    rewrite H0, Hnil. now destruct (c LF).
  - pose proof (Hk (x :: s)) as Hx. simpl in Hx. rewrite Hx.
    destruct (k (x :: s)) as [r|]; [reflexivity|]. simpl.
    destruct (c x); [exact IH | reflexivity].
Qed.

Lemma greedy_cap_line_feed (c : ascii -> bool)
    (kc : str -> str -> option (list str * str)) (acc s : str) :
  (forall g, lf_stable (kc g)) ->
  greedy_cap c kc acc (s ++ [LF]) = push_LF (greedy_cap c kc acc s).
Proof.
  intros Hkc. revert acc. induction s as [|x s IH]; intros acc; simpl.
  - assert (Hlf : forall g, kc g [LF] = None).
    { intros g. destruct (Hkc g) as [Hnil Hk].
      pose proof (Hk []) as H0. simpl in H0. now rewrite Hnil in H0. }
    assert (Hn : forall g, kc g [] = None) by (intros g; apply Hkc).
    destruct (c LF); rewrite ?Hn, ?Hlf; reflexivity.
  - destruct (Hkc acc) as [_ Hk]. destruct (c x).
    + rewrite IH. destruct (greedy_cap c kc (acc ++ [x]) s) as [r|];
        [reflexivity|]. simpl. apply (Hk (x :: s)).
    + apply (Hk (x :: s)).
Qed.

Lemma run_line_feed_stable (r : regex) (caps : list str) :
  ends_in_lit r = true -> lf_stable (run r caps).
Proof.
  revert caps. induction r as [|i r IH]; intros caps Hr; [discriminate|].
  destruct r as [|i' r'].
  - destruct i as [a| | | | |]; try discriminate. cbn [ends_in_lit] in Hr.
    apply negb_true_iff in Hr. split; [reflexivity|].
    intros [|x s]; cbn [run app push_LF option_map fst snd].
    + now rewrite Ascii.eqb_sym, Hr.
    + now destruct (Ascii.eqb x a).
  - assert (IH' : forall caps0, lf_stable (run (i' :: r') caps0))
      by (intros caps0; now apply IH).
    clear IH Hr. set (r0 := i' :: r') in *.
    destruct i as [a|c|c|c|c|c]; cbn [run]; split.
    + reflexivity.
    + intros [|x s]; cbn [app push_LF option_map].
      * destruct (Ascii.eqb LF a); [apply (proj1 (IH' caps)) | reflexivity].
      * destruct (Ascii.eqb x a); [apply (proj2 (IH' caps)) | reflexivity].
    + reflexivity.
    + intros [|x s]; cbn [app push_LF option_map].
      * destruct (c LF); [apply (proj1 (IH' caps)) | reflexivity].
      * destruct (c x); [apply (proj2 (IH' caps)) | reflexivity].
    + cbn [greedy]. apply (proj1 (IH' caps)).
    + intros s. now apply greedy_line_feed.
    + reflexivity.
    + intros [|x s]; cbn [app push_LF option_map].
      * destruct (c LF); [|reflexivity]. cbn [greedy].
        apply (proj1 (IH' caps)).
      * destruct (c x); [now apply greedy_line_feed | reflexivity].
    + cbn [lazy_run]. now rewrite (proj1 (IH' caps)).
    + intros s. now apply lazy_line_feed.
    + reflexivity.
    + intros [|x s]; cbn [app push_LF option_map].
      * destruct (c LF); [|reflexivity]. cbn [greedy_cap].
        apply (proj1 (IH' (caps ++ [[LF]]))).
      * destruct (c x); [|reflexivity].
        apply (greedy_cap_line_feed c (fun g => run r0 (caps ++ [g]))).
        intros g. apply IH'.
Qed.

(** What a line matches is what it matches with its line feed. *)
Lemma edge_match_with_LF (l : str) : edge_match (l ++ [LF]) = edge_match l.
Proof.
  unfold edge_match, re_match.
  rewrite (proj2 (run_line_feed_stable edge_pattern [] eq_refl) l).
  now destruct (run edge_pattern [] l) as [[caps rest]|].
Qed.

Lemma lines_agree_from (text cur : str) :
  only_LF_breaks text = true ->
  map edge_match (readlines_from cur text) =
  map edge_match (splitlines_from cur text).
Proof.
  unfold only_LF_breaks. revert cur.
  induction text as [|x s IH]; intros cur Hs; [reflexivity|].
  simpl in Hs. apply andb_true_iff in Hs as [Hx Hs]. simpl.
  destruct (Ascii.eqb_spec x CR) as [->|Hcr]; [discriminate Hx|].
  destruct (Ascii.eqb_spec x LF) as [->|Hlf].
  - simpl. now rewrite edge_match_with_LF, IH.
  - rewrite orb_false_r in Hx. apply negb_true_iff in Hx. rewrite Hx.
    now apply IH.
Qed.

(** X5. The parser reads the lines of a text with [readlines], each with its
    line feed, the collapser with [splitlines], without: a line matches the
    edge pattern with a line feed at its end exactly as it does without,
    groups included; and for a text whose only line boundary is the line
    feed, the two see, line by line, the same matches. *)
Theorem edge_lines_agree (text : str) :
  only_LF_breaks text = true ->
  (forall l, edge_match (l ++ [LF]) = edge_match l) /\
  map edge_match (readlines text) = map edge_match (splitlines text).
Proof.
  intros H. split; [apply edge_match_with_LF|]. now apply lines_agree_from.
Qed.

Lemma edge_lines_agree_witness :
  (forall l, edge_match (l ++ [LF]) = edge_match l) /\
  map edge_match (readlines loop_text) = map edge_match (splitlines loop_text).
Proof.
  apply (edge_lines_agree loop_text). reflexivity.
Defined.

(** ** The lines of the collapser's output *)

Lemma splitlines_from_line (l cur rest : str) :
  one_line l ->
  splitlines_from cur (l ++ LF :: rest) =
  (cur ++ l) :: splitlines_from [] rest.
Proof.
  intros Hl. revert cur. induction Hl as [|x l Hx _ IH]; intros cur.
  - now rewrite app_nil_r.
  - pose proof (linebreak_LF_CR x Hx) as [_ HCR].
    cbn [app splitlines_from].
    destruct (Ascii.eqb_spec x CR); [contradiction|].
    rewrite Hx, IH, <- app_assoc. reflexivity.
Qed.

Lemma splitlines_from_last (l cur : str) :
  one_line l -> cur ++ l <> [] -> splitlines_from cur l = [cur ++ l].
Proof.
  intros Hl. revert cur. induction Hl as [|x l Hx _ IH]; intros cur Hne.
  - rewrite app_nil_r in *. simpl. destruct cur; [congruence | reflexivity].
  - pose proof (linebreak_LF_CR x Hx) as [_ HCR].
    cbn [splitlines_from].
    destruct (Ascii.eqb_spec x CR); [contradiction|].
    rewrite Hx, IH, <- app_assoc; [reflexivity|].
    rewrite <- app_assoc. simpl. now destruct cur.
Qed.

Lemma splitlines_lines (Ls : list str) (tl : str) :
  Forall one_line Ls -> one_line tl -> tl <> [] ->
  splitlines (concat (map with_LF Ls) ++ tl) = Ls ++ [tl].
Proof.
  intros HLs Htl Hne. unfold splitlines.
  induction HLs as [|l Ls Hl _ IH]; simpl.
  - now apply (splitlines_from_last tl []).
  - unfold with_LF at 1. rewrite <- !app_assoc. simpl.
    rewrite splitlines_from_line by assumption. simpl. now rewrite IH.
Qed.

(** The output of the collapser, cut into lines: the lines passed through,
    then for each edge its line and an empty line, then the brace. *)
Lemma output_split {SO : SetOrder} (text : str) :
  splitlines (filter_internal_loops text) =
  removelast (filtered_lines (scan text)) ++
  flat_map (fun e => [edge_text e; []]) (sorted_edges text) ++ [py "}"].
Proof.
  unfold filter_internal_loops.
  rewrite app_assoc, join_snoc.
  change (fun l : str => l ++ [LF]) with with_LF.
  rewrite map_app, concat_app, formatted_lines, <- concat_app, <- map_app.
  rewrite splitlines_lines; [now rewrite <- app_assoc | |
                             repeat constructor | discriminate].
  apply Forall_app. split; [apply kept_lines_one_line|].
  apply Forall_forall. intros l Hin.
  apply in_flat_map in Hin as (e & He & [<-|[<-|[]]]); [|constructor].
  apply edge_text_one_line.
  pose proof (all_edges_tokens text) as Ht. rewrite Forall_forall in Ht.
  apply Ht. now apply sorted_edges_in.
Qed.

Lemma edge_text_match_plain (e : edge) :
  edge_tokens e -> edge_match (edge_text e) = Some e.
Proof.
  intros He. rewrite <- edge_match_with_LF. now apply edge_text_match.
Qed.

Section CountLines.
Context (test : str -> str -> bool).

Lemma count_kept (K : list str) :
  Forall (fun l => is_edge_line l = false) K ->
  length (filter (line_test test) K) = 0.
Proof.
  induction 1 as [|l K Hl _ IH]; [reflexivity|].
  simpl. unfold line_test at 1. unfold is_edge_line in Hl.
  now destruct (edge_match l).
Qed.

Lemma count_emitted (E : list edge) :
  Forall edge_tokens E ->
  length (filter (line_test test) (flat_map (fun e => [edge_text e; []]) E)) =
  length (filter (fun e => test (fst e) (snd e)) E).
Proof.
  induction 1 as [|e E He _ IH]; [reflexivity|].
  assert (H1 : (line_test test) (edge_text e) = test (fst e) (snd e)).
  { unfold line_test. rewrite (edge_text_match_plain e He). now destruct e. }
  assert (H2 : (line_test test) [] = false) by reflexivity.
  cbn [flat_map app filter]. rewrite H1, H2.
  destruct (test (fst e) (snd e)); cbn [length]; now rewrite IH.
Qed.

Lemma count_output {SO : SetOrder} (text : str) :
  Forall (fun l => is_edge_line l = false)
         (removelast (filtered_lines (scan text))) ->
  length (filter (line_test test) (splitlines (filter_internal_loops text))) =
  length (filter (fun e => test (fst e) (snd e)) (sorted_edges text)).
Proof.
  intros HK. rewrite output_split, !filter_app, !length_app.
  rewrite (count_kept _ HK), count_emitted.
  - assert (H2 : (line_test test) (py "}") = false) by reflexivity.
    cbn [filter]. rewrite H2. simpl. lia.
  - apply Forall_forall. intros e He. apply sorted_edges_in in He.
    pose proof (all_edges_tokens text) as Ht. rewrite Forall_forall in Ht.
    now apply Ht.
Qed.
End CountLines.

Lemma count_pairs (A B : str) (E : list edge) :
  length (filter (fun e => str_eqb (fst e) A && str_eqb (snd e) B) E) =
  count_occ edge_eq_dec E (A, B).
Proof.
  induction E as [|[a b] E IH]; [reflexivity|].
  cbn [filter count_occ fst snd].
  destruct (edge_eq_dec (a, b) (A, B)) as [Heq|Hne].
  - inversion Heq; subst. rewrite !str_eqb_refl. simpl. now rewrite IH.
  - destruct (str_eqb_spec a A) as [->|]; simpl; [|exact IH].
    destruct (str_eqb_spec b B) as [->|]; simpl; [congruence | exact IH].
Qed.

Lemma count_either (A B : str) (E : list edge) :
  length (filter (fun e => str_eqb (fst e) A && str_eqb (snd e) B ||
                           str_eqb (fst e) B && str_eqb (snd e) A) E) =
  between A B E.
Proof.
  unfold between. induction E as [|[a b] E IH]; [reflexivity|].
  cbn [filter fst snd].
  destruct (edge_eq_dec (a, b) (A, B)) as [Heq|Hne].
  - inversion Heq; subst. rewrite !str_eqb_refl. simpl. now rewrite IH.
  - destruct (edge_eq_dec (a, b) (B, A)) as [Heq|Hne'].
    + inversion Heq; subst. rewrite !str_eqb_refl, orb_true_r. simpl.
      now rewrite IH.
    + replace (str_eqb a A && str_eqb b B) with false.
      * replace (str_eqb a B && str_eqb b A) with false; [exact IH|].
        symmetry. apply andb_false_iff.
        destruct (str_eqb_spec a B) as [->|]; [|now left].
        destruct (str_eqb_spec b A) as [->|]; [congruence | now right].
      * symmetry. apply andb_false_iff.
        destruct (str_eqb_spec a A) as [->|]; [|now left].
        destruct (str_eqb_spec b B) as [->|]; [congruence | now right].
Qed.

(** ** The claim about deduplication *)

(** C2 (as stated, refuted). With [n1 -- n2;] and [n2 -- n1;] both in the
    block, the output holds two edge lines between [n1] and [n2], not one. *)
Lemma reversed_duplicate_survives :
  ~ (forall (text A B : str),
        In (A, B) (edge_lines (scan text)) ->
        In (B, A) (edge_lines (scan text)) ->
        lines_between A B (splitlines (filter_internal_loops text)) = 1).
Proof.
  intros H. specialize (H both_ways_text (py "n1") (py "n2")).
  assert (Hb : lines_between (py "n1") (py "n2")
                 (splitlines (filter_internal_loops both_ways_text)) = 2)
    by reflexivity.
  rewrite H in Hb; [discriminate | now left | right; now left].
Qed.

(** C2 (amended). When [A -- B;] and [B -- A;], [A <> B], are both edge lines
    inside the graph block for tokens without [i], the edge list that the
    collapser formats into its output, after the lines it passes through,
    holds the pair [(A, B)] exactly once and the pair [(B, A)] exactly once:
    deduplication removes repetitions of the same ordered pair and keeps the
    two directions apart. When, in addition, no line passed through is an
    edge line, the output as a whole has exactly one edge line with the
    tokens [A], [B], exactly one with the tokens [B], [A], two between [A]
    and [B]. *)
Theorem dedup_is_per_direction {SO : SetOrder} (text A B : str) :
  A <> B ->
  In (A, B) (edge_lines (scan text)) ->
  In (B, A) (edge_lines (scan text)) ->
  filter_internal_loops text =
    join [LF] (removelast (filtered_lines (scan text)) ++
               map format_edge (sorted_edges text) ++ [py "}"]) /\
  count_occ edge_eq_dec (sorted_edges text) (A, B) = 1 /\
  count_occ edge_eq_dec (sorted_edges text) (B, A) = 1 /\
  between A B (sorted_edges text) = 2 /\
  (Forall (fun l => is_edge_line l = false)
          (removelast (filtered_lines (scan text))) ->
   lines_for A B (splitlines (filter_internal_loops text)) = 1 /\
   lines_for B A (splitlines (filter_internal_loops text)) = 1 /\
   lines_between A B (splitlines (filter_internal_loops text)) = 2).
Proof.
  intros Hne HAB HBA.
  assert (H1 : count_occ edge_eq_dec (sorted_edges text) (A, B) = 1).
  { apply sorted_edges_once. unfold all_edges. apply in_or_app. now left. }
  assert (H2 : count_occ edge_eq_dec (sorted_edges text) (B, A) = 1).
  { apply sorted_edges_once. unfold all_edges. apply in_or_app. now left. }
  assert (H3 : between A B (sorted_edges text) = 2).
  { rewrite (between_count A B _ Hne), H1, H2. reflexivity. }
  split; [reflexivity|]. split; [assumption|]. split; [assumption|].
  split; [assumption|]. intros HK.
  unfold lines_for, lines_between. rewrite !count_output by assumption.
  cbv beta. now rewrite !count_pairs, count_either.
Qed.

Lemma dedup_is_per_direction_witness :
  count_occ edge_eq_dec (sorted_edges both_ways_text) (py "n1", py "n2") = 1 /\
  count_occ edge_eq_dec (sorted_edges both_ways_text) (py "n2", py "n1") = 1 /\
  lines_for (py "n1") (py "n2")
    (splitlines (filter_internal_loops both_ways_text)) = 1 /\
  lines_for (py "n2") (py "n1")
    (splitlines (filter_internal_loops both_ways_text)) = 1 /\
  lines_between (py "n1") (py "n2")
    (splitlines (filter_internal_loops both_ways_text)) = 2.
Proof.
  destruct (dedup_is_per_direction both_ways_text (py "n1") (py "n2"))
    as (_ & H1 & H2 & _ & Hout);
    [discriminate | now left | right; now left |].
  destruct Hout as (H3 & H4 & H5); [repeat constructor|].
  repeat split; assumption.
Defined.
